(** * range-v3, [view/iota.hpp]: a shallow embedding and its properties

    The development follows the header top-down:

    - the built-in integral types of C++11 and their arithmetic
      (promotion, usual arithmetic conversions, wrap-around, overflow),
      for four common ABIs;
    - the iota concepts ([InputIota] ... [RandomAccessIota]) as type classes;
    - [detail::iota_difference_] and the three overloads of
      [detail::iota_minus];
    - the cursors [iota_view] and [closed_iota_view];
    - the entry points [view::iota] and [view::ints];
    - the properties of the specification, one theorem per claim. *)

From Stdlib Require Import ZArith List Bool Lia.
Import ListNotations.
Local Open Scope Z_scope.

Set Implicit Arguments.

(* ================================================================== *)
(** * Outcomes of a C++ evaluation *)
(* ================================================================== *)

(** An expression either yields a value, has undefined behaviour (signed
    overflow), or stops the program in [RANGES_ASSERT]. *)
Inductive outcome (A : Type) : Type :=
| Ok (a : A)
| Undefined
| AssertionFailure.

Arguments Ok {A} a.
Arguments Undefined {A}.
Arguments AssertionFailure {A}.

Definition bind {A B : Type} (c : outcome A) (k : A -> outcome B) : outcome B :=
  match c with
  | Ok a => k a
  | Undefined => Undefined
  | AssertionFailure => AssertionFailure
  end.

Notation "x <- c ;; k" := (bind c (fun x => k))
  (at level 61, c at next level, right associativity).

(** Modelled from the spec: [RANGES_ASSERT] (defined in range_fwd.hpp, not
    among the sources) is the checked, fatal precondition of section 7. *)
Definition RANGES_ASSERT (b : bool) : outcome unit :=
  if b then Ok tt else AssertionFailure.

(* ================================================================== *)
(** * Built-in integral types *)
(* ================================================================== *)

(** The types for which [std::is_integral] holds in C++11. *)
Inductive itype : Type :=
| Bool | Char | SChar | UChar | WChar | Char16 | Char32
| Short | UShort | Int | UInt | Long | ULong | LLong | ULLong.

Definition itype_eqb (a b : itype) : bool :=
  match a, b with
  | Bool, Bool | Char, Char | SChar, SChar | UChar, UChar
  | WChar, WChar | Char16, Char16 | Char32, Char32
  | Short, Short | UShort, UShort | Int, Int | UInt, UInt
  | Long, Long | ULong, ULong | LLong, LLong | ULLong, ULLong => true
  | _, _ => false
  end.

(** What the header takes from <climits>, <cstdint> and the compiler, for
    x86-64 System V, AArch64 Linux, i386 System V and 64-bit Windows. *)
Inductive abi : Type := LP64 | AAPCS64 | ILP32 | LLP64.

Definition CHAR_BIT : Z := 8.

Definition sizeof (p : abi) (T : itype) : Z :=
  match T with
  | Bool | Char | SChar | UChar => 1
  | Short | UShort | Char16 => 2
  | Int | UInt | Char32 => 4
  | Long | ULong => match p with LP64 | AAPCS64 => 8 | ILP32 | LLP64 => 4 end
  | LLong | ULLong => 8
  | WChar => match p with LLP64 => 2 | _ => 4 end
  end.

(** [std::is_signed]. *)
Definition is_signed (p : abi) (T : itype) : bool :=
  match T with
  | SChar | Short | Int | Long | LLong => true
  | Bool | UChar | UShort | UInt | ULong | ULLong | Char16 | Char32 => false
  | Char => match p with AAPCS64 => false | _ => true end
  | WChar => match p with LP64 | ILP32 => true | AAPCS64 | LLP64 => false end
  end.

Definition int_fast8_t (p : abi) : itype := SChar.
Definition int_fast16_t (p : abi) : itype :=
  match p with LP64 | AAPCS64 => Long | ILP32 | LLP64 => Int end.
Definition int_fast32_t (p : abi) : itype :=
  match p with LP64 | AAPCS64 => Long | ILP32 | LLP64 => Int end.
Definition int_fast64_t (p : abi) : itype :=
  match p with LP64 | AAPCS64 => Long | ILP32 | LLP64 => LLong end.
Definition ptrdiff_t (p : abi) : itype :=
  match p with LP64 | AAPCS64 => Long | ILP32 => Int | LLP64 => LLong end.

(** Number of value-carrying bits: [bool] holds 0 and 1 only. *)
Definition width (p : abi) (T : itype) : Z :=
  match T with Bool => 1 | _ => sizeof p T * CHAR_BIT end.

(** [std::numeric_limits<T>::min()] and [max()]. *)
Definition min_val (p : abi) (T : itype) : Z :=
  if is_signed p T then - 2 ^ (width p T - 1) else 0.
Definition max_val (p : abi) (T : itype) : Z :=
  if is_signed p T then 2 ^ (width p T - 1) - 1 else 2 ^ width p T - 1.

Definition in_range (p : abi) (T : itype) (z : Z) : bool :=
  (min_val p T <=? z) && (z <=? max_val p T).

(** [T]'s values are all values of [U]. *)
Definition represents_all (p : abi) (T U : itype) : bool :=
  (min_val p U <=? min_val p T) && (max_val p T <=? max_val p U).

(** Two's-complement reading of the low [w] bits of [z]. *)
Definition wrap_signed (w z : Z) : Z :=
  (z + 2 ^ (w - 1)) mod 2 ^ w - 2 ^ (w - 1).

(** Integral conversion to [T]: to [bool] a test against zero, to an
    unsigned type reduction modulo [2^width], to a signed type the
    two's-complement wrap (implementation-defined before C++20; what all
    four ABIs do). *)
Definition convert (p : abi) (T : itype) (z : Z) : Z :=
  match T with
  | Bool => if z =? 0 then 0 else 1
  | _ => if is_signed p T then wrap_signed (width p T) z
         else z mod 2 ^ width p T
  end.

(** Integer conversion rank, for the types that survive promotion. *)
Definition rank (T : itype) : Z :=
  match T with
  | Bool => 0
  | Char | SChar | UChar => 1
  | Short | UShort | Char16 => 2
  | Int | UInt | Char32 | WChar => 3
  | Long | ULong => 4
  | LLong | ULLong => 5
  end.

(** Integral promotion, [conv.prom]. *)
Definition promote (p : abi) (T : itype) : itype :=
  match T with
  | Bool => Int
  | Char | SChar | UChar | Short | UShort =>
      if represents_all p T Int then Int else UInt
  | WChar | Char16 | Char32 =>
      match find (represents_all p T) [Int; UInt; Long; ULong; LLong] with
      | Some U => U
      | None => ULLong
      end
  | _ => T
  end.

Definition to_unsigned (T : itype) : itype :=
  match T with
  | Int => UInt | Long => ULong | LLong => ULLong
  | SChar => UChar | Short => UShort
  | _ => T
  end.

(** [std::make_signed]; ill-formed for [bool], which no subtraction yields.
    For the character types: the signed type of least rank and equal size. *)
Definition make_signed (p : abi) (T : itype) : itype :=
  match T with
  | UInt => Int | ULong => Long | ULLong => LLong
  | UChar | Char => SChar | UShort => Short
  | WChar | Char16 | Char32 =>
      match find (fun U => sizeof p U =? sizeof p T) [SChar; Short; Int; Long] with
      | Some U => U
      | None => LLong
      end
  | _ => T
  end.

(** Usual arithmetic conversions on two promoted operand types, [expr]/10. *)
Definition common (p : abi) (L R : itype) : itype :=
  if itype_eqb L R then L
  else if Bool.eqb (is_signed p L) (is_signed p R)
       then (if rank L <? rank R then R else L)
       else
         let S := if is_signed p L then L else R in
         let U := if is_signed p L then R else L in
         if rank S <=? rank U then U
         else if represents_all p U S then S
         else to_unsigned S.

(** Type of [a op b] for [a : T1], [b : T2]. *)
Definition arith_type (p : abi) (T1 T2 : itype) : itype :=
  common p (promote p T1) (promote p T2).

(** A value of the integral type [T] on ABI [p]. *)
Record cint (p : abi) (T : itype) : Type := CInt { zval : Z }.

Arguments CInt {p T} zval.
Arguments zval {p T} c.

Definition valid {p T} (a : cint p T) : Prop := in_range p T (zval a) = true.

(** [(T) a] and implicit conversion to [T]. *)
Definition cast {p} (T : itype) {T0} (a : cint p T0) : cint p T :=
  CInt (convert p T (zval a)).

(** A builtin binary arithmetic operator: both operands go to the common
    type; an unsigned result wraps, a signed one must fit. *)
Definition arith (op : Z -> Z -> Z) {p T1 T2} (a : cint p T1) (b : cint p T2)
  : outcome (cint p (arith_type p T1 T2)) :=
  let T := arith_type p T1 T2 in
  let r := op (convert p T (zval a)) (convert p T (zval b)) in
  if is_signed p T
  then (if in_range p T r then Ok (CInt r) else Undefined)
  else Ok (CInt (convert p T r)).

Definition c_add {p T1 T2} := @arith Z.add p T1 T2.
Definition c_sub {p T1 T2} := @arith Z.sub p T1 T2.

(** [a == b] and [a >= b]: compared in the common type. *)
Definition c_eq {p T1 T2} (a : cint p T1) (b : cint p T2) : bool :=
  let T := arith_type p T1 T2 in
  convert p T (zval a) =? convert p T (zval b).
Definition c_ge {p T1 T2} (a : cint p T1) (b : cint p T2) : bool :=
  let T := arith_type p T1 T2 in
  convert p T (zval b) <=? convert p T (zval a).

(** [a += n], that is [a = (T)(a + n)]. *)
Definition c_add_assign {p T D} (a : cint p T) (n : cint p D) : outcome (cint p T) :=
  r <- c_add a n ;; Ok (cast T r).
Definition c_sub_assign {p T D} (a : cint p T) (n : cint p D) : outcome (cint p T) :=
  r <- c_sub a n ;; Ok (cast T r).

(** The literal [1], an [int]. *)
Definition one {p} : cint p Int := CInt 1.

(** [++a]: sets a [bool] to [true] (C++11), otherwise [a += 1]. *)
Definition c_pre_inc {p T} (a : cint p T) : outcome (cint p T) :=
  match T with
  | Bool => Ok (CInt 1)
  | _ => c_add_assign a (@one p)
  end.

(** [--a], for the types that have it (not [bool]). *)
Definition c_pre_dec {p T} (a : cint p T) : outcome (cint p T) :=
  c_sub_assign a (@one p).

(* ================================================================== *)
(** * The iota concepts *)
(* ================================================================== *)

(** The concept tags of namespace [concepts], most refined last. *)
Module concepts.
Inductive tag : Type :=
| InputIota | ForwardIota | BidirectionalIota | RandomAccessIota.
End concepts.

(** What each concept lets the views use of [Val]. *)
Class InputIota (Val : Type) : Type :=
  { pre_inc : Val -> outcome Val }.                       (* ++t *)

Class EqualityComparable (Val Val2 : Type) : Type :=
  { equal_to : Val -> Val2 -> bool }.                     (* t == u *)

Class BidirectionalIota (Val : Type) : Type :=
  { pre_dec : Val -> outcome Val }.                       (* --t *)

(** [t - t] models [Integral], so the difference type is a [cint p DT];
    [iota_minus] is the overload of [detail::iota_minus] chosen for [Val]. *)
Class RandomAccessIota (p : abi) (Val : Type) (DT : itype) : Type :=
  { iota_minus : Val -> Val -> outcome (cint p DT);
    add_assign : Val -> cint p DT -> outcome Val }.       (* t += n *)

(** [iota_concept<Val>] for the integral types: every requirement is met
    except by [bool], which has [++] (until C++17) and [==] but no [--]. *)
Definition iota_concept (Val : itype) : concepts.tag :=
  match Val with
  | Bool => concepts.ForwardIota
  | _ => concepts.RandomAccessIota
  end.

Definition is_integral (Val : itype) : bool := true.

(* ================================================================== *)
(** * [namespace detail] *)
(* ================================================================== *)

(** [decltype(std::declval<Val>() - std::declval<Val>())]. *)
Definition difference_t (p : abi) (Val : itype) : itype := arith_type p Val Val.

(** [sizeof(difference_t) * CHAR_BIT]. *)
Definition bits (p : abi) (Val : itype) : Z :=
  sizeof p (difference_t p Val) * CHAR_BIT.

(** The primary template of [iota_difference_] and its two partial
    specialisations; for a non-integral random-access [Val] the type is the
    one of the user's [operator-], the parameter [DT] of [RandomAccessIota]. *)
Definition iota_difference_ (p : abi) (Val : itype)
           (Iota : concepts.tag) (IsIntegral : bool) : itype :=
  match Iota, IsIntegral with
  | concepts.RandomAccessIota, true =>
      if negb (itype_eqb Val (difference_t p Val))
      then make_signed p (difference_t p Val)
      else if bits p Val <? 8 then int_fast8_t p
      else if bits p Val <? 16 then int_fast16_t p
      else if bits p Val <? 32 then int_fast32_t p
      else int_fast64_t p
  | concepts.RandomAccessIota, false => difference_t p Val
  | _, _ => ptrdiff_t p
  end.

Definition iota_difference (p : abi) (Val : itype) : itype :=
  iota_difference_ p Val (iota_concept Val) (is_integral Val).

Definition iota_difference_t := iota_difference.

(** [iota_minus], [!Integral<Val>]: [return v0 - v1;] *)
Definition iota_minus_non_integral {Val D : Type}
           (minus : Val -> Val -> outcome D) (v0 v1 : Val) : outcome D :=
  minus v0 v1.

(** [iota_minus], [SignedIntegral<Val>]: [return (D) v0 - (D) v1;] *)
Definition iota_minus_signed {p Val} (v0 v1 : cint p Val)
  : outcome (cint p (iota_difference_t p Val)) :=
  let D := iota_difference_t p Val in
  r <- c_sub (cast D v0) (cast D v1) ;; Ok (cast D r).

(** [iota_minus], [UnsignedIntegral<Val>]: [return (D) (v0 - v1);] *)
Definition iota_minus_unsigned {p Val} (v0 v1 : cint p Val)
  : outcome (cint p (iota_difference_t p Val)) :=
  let D := iota_difference_t p Val in
  r <- c_sub v0 v1 ;; Ok (cast D r).

(** Overload resolution between the two integral overloads. *)
Definition iota_minus_integral {p Val} (v0 v1 : cint p Val)
  : outcome (cint p (iota_difference_t p Val)) :=
  if is_signed p Val then iota_minus_signed v0 v1 else iota_minus_unsigned v0 v1.

#[export] Instance cint_InputIota p T : InputIota (cint p T) :=
  { pre_inc := c_pre_inc }.
#[export] Instance cint_EqualityComparable p T1 T2
  : EqualityComparable (cint p T1) (cint p T2) :=
  { equal_to := c_eq }.
#[export] Instance cint_BidirectionalIota p T : BidirectionalIota (cint p T) :=
  { pre_dec := c_pre_dec }.
#[export] Instance cint_RandomAccessIota p T
  : RandomAccessIota p (cint p T) (iota_difference_t p T) :=
  { iota_minus := iota_minus_integral;
    add_assign := c_add_assign }.

(** A non-integral random-access value: a pointer into an array, as the
    index of its element.  [q - r] is a [ptrdiff_t] and must fit. *)
Record pointer : Type := Ptr { index : Z }.

Definition ptr_minus (p : abi) (q r : pointer) : outcome (cint p (ptrdiff_t p)) :=
  if in_range p (ptrdiff_t p) (index q - index r)
  then Ok (CInt (index q - index r)) else Undefined.

#[export] Instance pointer_InputIota : InputIota pointer :=
  { pre_inc q := Ok (Ptr (index q + 1)) }.
#[export] Instance pointer_EqualityComparable : EqualityComparable pointer pointer :=
  { equal_to q r := index q =? index r }.
#[export] Instance pointer_BidirectionalIota : BidirectionalIota pointer :=
  { pre_dec q := Ok (Ptr (index q - 1)) }.
#[export] Instance pointer_RandomAccessIota p
  : RandomAccessIota p pointer (ptrdiff_t p) :=
  { iota_minus := iota_minus_non_integral (ptr_minus p);
    add_assign q n := Ok (Ptr (index q + zval n)) }.

(* ================================================================== *)
(** * [iota_view<Val>] *)
(* ================================================================== *)

Module iota_view.
Section Members.
Context {Val : Type}.

Record t : Type := mk { value_ : Val }.

Definition current (self : t) : Val := value_ self.

Definition next `{InputIota Val} (self : t) : outcome t :=
  v <- pre_inc (value_ self) ;; Ok (mk v).

Definition done (self : t) : bool := false.

Definition equal `{EqualityComparable Val Val} (self that : t) : bool :=
  equal_to (value_ that) (value_ self).

Definition prev `{BidirectionalIota Val} (self : t) : outcome t :=
  v <- pre_dec (value_ self) ;; Ok (mk v).

Definition advance {p DT} `{RandomAccessIota p Val DT}
           (self : t) (n : cint p DT) : outcome t :=
  v <- add_assign (value_ self) n ;; Ok (mk v).

Definition distance_to {p DT} `{RandomAccessIota p Val DT}
           (self that : t) : outcome (cint p DT) :=
  iota_minus (value_ that) (value_ self).

(** [k] calls of [next]. *)
Fixpoint nexts `{InputIota Val} (k : nat) (self : t) : outcome t :=
  match k with
  | O => Ok self
  | S k' => s <- next self ;; nexts k' s
  end.
End Members.
Arguments t : clear implicits.
End iota_view.

(* ================================================================== *)
(** * [closed_iota_view<Val, Val2>] *)
(* ================================================================== *)

Module closed_iota_view.
Section Members.
Context {Val Val2 : Type}.

Record t : Type := mk { from_ : Val; to_ : Val2; done_ : bool }.

(** The constructor: [done_ = false] by its member initialiser. *)
Definition make (from : Val) (to : Val2) : t := mk from to false.

Definition current (self : t) : Val := from_ self.

Definition next `{InputIota Val} `{EqualityComparable Val Val2}
           (self : t) : outcome t :=
  if equal_to (from_ self) (to_ self)
  then Ok (mk (from_ self) (to_ self) true)
  else v <- pre_inc (from_ self) ;; Ok (mk v (to_ self) (done_ self)).

Definition done (self : t) : bool := done_ self.

Definition equal `{EqualityComparable Val Val} (self that : t) : bool :=
  equal_to (from_ that) (from_ self).

Definition prev `{BidirectionalIota Val} (self : t) : outcome t :=
  v <- pre_dec (from_ self) ;; Ok (mk v (to_ self) (done_ self)).

(** [k] calls of [next]. *)
Fixpoint nexts `{InputIota Val} `{EqualityComparable Val Val2}
         (k : nat) (self : t) : outcome t :=
  match k with
  | O => Ok self
  | S k' => s <- next self ;; nexts k' s
  end.

(** The values a consumer reads: [current] while not [done], [next] in
    between.  [None] when [fuel] calls of [next] did not finish it. *)
Fixpoint elements `{InputIota Val} `{EqualityComparable Val Val2}
         (fuel : nat) (self : t) : option (outcome (list Val)) :=
  if done self then Some (Ok [])
  else match fuel with
       | O => None
       | S fuel' =>
           match next self with
           | Ok s =>
               match elements fuel' s with
               | Some (Ok l) => Some (Ok (current self :: l))
               | r => r
               end
           | Undefined => Some Undefined
           | AssertionFailure => Some AssertionFailure
           end
       end.
End Members.
Arguments t : clear implicits.

(** The random-access members need [iota_minus(to_, from_)], hence one
    value type. *)
Section RandomAccess.
Context {Val : Type} {p : abi} {DT : itype} `{RandomAccessIota p Val DT}.

Definition advance (self : t Val Val) (n : cint p DT) : outcome (t Val Val) :=
  d <- iota_minus (to_ self) (from_ self) ;;
  _ <- RANGES_ASSERT (c_ge d n) ;;
  v <- add_assign (from_ self) n ;;
  Ok (mk v (to_ self) (done_ self)).

Definition distance_to (self that : t Val Val) : outcome (cint p DT) :=
  iota_minus (from_ that) (from_ self).
End RandomAccess.
End closed_iota_view.

(* ================================================================== *)
(** * The bounded-prefix adapter *)
(* ================================================================== *)

(** Modelled from the spec: [take_view] (range/v3/view/take.hpp, not among
    the sources), the adapter that truncates an unbounded sequence to a
    fixed element count.  It reads the first [n_] values of the wrapped
    [iota_view]; a count that is not positive gives none. *)
Module take_view.
Section Members.
Context {Val : Type} {p : abi} {DT : itype}.

Record t : Type := mk { rng_ : iota_view.t Val; n_ : cint p DT }.

Fixpoint first_n `{InputIota Val} (k : nat) (v : iota_view.t Val)
  : outcome (list Val) :=
  match k with
  | O => Ok []
  | S k' =>
      match k' with
      | O => Ok [iota_view.current v]
      | S _ =>
          s <- iota_view.next v ;;
          l <- first_n k' s ;;
          Ok (iota_view.current v :: l)
      end
  end.

Definition elements `{InputIota Val} (self : t) : outcome (list Val) :=
  first_n (Z.to_nat (zval (n_ self))) (rng_ self).
End Members.
Arguments t : clear implicits.
End take_view.

(* ================================================================== *)
(** * [namespace view]: the entry points *)
(* ================================================================== *)

Module iota_fn.
(** [impl], overload for the tag [concepts::RandomAccessIota]:
    [{iota_view<Val>{std::move(from)}, detail::iota_minus(to, from) + 1}].
    The count is stored in the view's difference type. *)
Definition impl_RandomAccessIota {Val p DT} `{RandomAccessIota p Val DT}
           (from to : Val) : outcome (take_view.t Val p DT) :=
  d <- iota_minus to from ;;
  n <- c_add d (@one p) ;;
  Ok (take_view.mk (iota_view.mk from) (cast DT n)).

(** [impl], overload for the tag [concepts::InputIota]. *)
Definition impl_InputIota {Val Val2 : Type} (from : Val) (to : Val2)
  : closed_iota_view.t Val Val2 :=
  closed_iota_view.make from to.

(** [operator()(Val value)]. *)
Definition call1 {Val : Type} (value : Val) : iota_view.t Val :=
  iota_view.mk value.
End iota_fn.

(** The two result types of [iota(from, to)] on integral arguments. *)
Inductive iota_result (p : abi) (Val Val2 : itype) : Type :=
| Counted (r : take_view.t (cint p Val) p (iota_difference_t p Val))
| Closed (r : closed_iota_view.t (cint p Val) (cint p Val2)).

Arguments Counted {p Val Val2} r.
Arguments Closed {p Val Val2} r.

(** [RandomAccessIota<Val>()] as a truth value. *)
Definition models_RandomAccessIota (Val : itype) : bool :=
  match iota_concept Val with
  | concepts.RandomAccessIota => true
  | _ => false
  end.

(** [iota_fn::operator()(Val from, Val2 to)] on integral arguments: the
    counted view when [Val] is random access and [Val2] is the same type,
    the closed view otherwise. *)
Definition iota {p Val Val2} (from : cint p Val) (to : cint p Val2)
  : outcome (iota_result p Val Val2) :=
  if models_RandomAccessIota Val && itype_eqb Val Val2
  then r <- iota_fn.impl_RandomAccessIota from (@CInt p Val (zval to)) ;;
       Ok (Counted r)
  else Ok (Closed (iota_fn.impl_InputIota from to)).

(** [ints_fn::operator()(Val from, Val to)]: always counted. *)
Definition ints {p Val} (from to : cint p Val)
  : outcome (take_view.t (cint p Val) p (iota_difference_t p Val)) :=
  d <- iota_minus to from ;;
  n <- c_add d (@one p) ;;
  Ok (take_view.mk (iota_view.mk from) (cast (iota_difference_t p Val) n)).

(** The values read from the result of [iota(from, to)]. *)
Definition iota_elements {p Val Val2} (fuel : nat)
           (r : iota_result p Val Val2) : option (outcome (list (cint p Val))) :=
  match r with
  | Counted tv => Some (take_view.elements tv)
  | Closed cv => closed_iota_view.elements fuel cv
  end.

(* ================================================================== *)
(** * Vocabulary of the specification *)
(* ================================================================== *)

(** The values [lo, lo + 1, ...], [n] of them, as values of type [T]. *)
Fixpoint interval (p : abi) (T : itype) (lo : Z) (n : nat) : list (cint p T) :=
  match n with
  | O => []
  | S n' => CInt lo :: interval p T (lo + 1) n'
  end.

(** [k] applications of [++] to a value. *)
Fixpoint pre_incs {Val : Type} `{InputIota Val} (k : nat) (v : Val) : outcome Val :=
  match k with
  | O => Ok v
  | S k' => w <- pre_inc v ;; pre_incs k' w
  end.

(** [a.seek(a.distanceTo(b)).peek()] on the unbounded generator. *)
Definition seek_by_distance {Val p DT} `{RandomAccessIota p Val DT}
           (a b : iota_view.t Val) : outcome Val :=
  n <- iota_view.distance_to a b ;;
  s <- iota_view.advance a n ;;
  Ok (iota_view.current s).

(** [++] on a value of type [T] adds in the type of [t + 1] and converts
    back.  The addition itself can overflow, which is undefined, exactly
    when [T] is signed and as wide as that type; otherwise [++] wraps. *)
Definition increment_overflows (p : abi) (T : itype) : bool :=
  is_signed p T && (width p T =? width p (arith_type p T Int)).

(** The signed fast type of nominal width [N]. *)
Definition int_fast (p : abi) (N : Z) : itype :=
  if N =? 8 then int_fast8_t p
  else if N =? 16 then int_fast16_t p
  else if N =? 32 then int_fast32_t p
  else int_fast64_t p.

(** Section 4.2 of the specification, in its words: the signed counterpart
    of the natural subtraction result when that type differs from [Val];
    otherwise the smallest of the 8, 16, 32, 64-bit fast types whose width
    exceeds the natural result's, the 64-bit one by default. *)
Definition spec_distance_type (p : abi) (Val : itype) : itype :=
  let natural := difference_t p Val in
  if itype_eqb natural Val
  then int_fast p (match find (fun N => sizeof p natural * CHAR_BIT <? N) [8; 16; 32] with
                   | Some N => N
                   | None => 64
                   end)
  else make_signed p natural.

(** What [v0 - v1] computes on two operands of type [Val]: a difference
    modulo [2^bits] when the natural result type is unsigned, the exact
    difference when [Val] promotes to a signed type. *)
Definition natural_difference (p : abi) (Val : itype) (v0 v1 : Z) : Z :=
  if is_signed p (difference_t p Val) then v0 - v1
  else (v0 - v1) mod 2 ^ bits p Val.

(** Section 4.2 on unsigned values, read literally: subtract in the
    unsigned domain of [Val], then convert to the distance type. *)
Definition spec_unsigned_minus (p : abi) (Val : itype) (v0 v1 : Z) : Z :=
  convert p (iota_difference_t p Val) ((v0 - v1) mod 2 ^ width p Val).

(** The same sentence with the unsigned result read as a two's-complement
    bit pattern of [Val]'s width. *)
Definition spec_unsigned_minus_twos (p : abi) (Val : itype) (v0 v1 : Z) : Z :=
  convert p (iota_difference_t p Val) (wrap_signed (width p Val) (v0 - v1)).

(** Section 8 on [iota(start, end)]: [end - start + 1] elements, the last
    being [end]. *)
Definition yields_inclusive_range {p Val} (start stop : cint p Val) : Prop :=
  exists fuel r l,
    iota start stop = Ok r /\
    iota_elements fuel r = Some (Ok l) /\
    Z.of_nat (length l) = zval stop - zval start + 1 /\
    last l start = stop.

(** Section 3 on the difference type: it holds [max(Value) - min(Value)]. *)
Definition holds_full_span (p : abi) (Val : itype) : Prop :=
  max_val p Val - min_val p Val <= max_val p (iota_difference_t p Val).

(** The natural result of [v0 - v1] is unsigned and narrower than the
    distance type: the conversion to the distance type extends it with
    zeros, so the distance keeps the wrapped, non-negative value. *)
Definition zero_extends (p : abi) (Val : itype) : bool :=
  negb (is_signed p (difference_t p Val)) &&
  (bits p Val <? width p (iota_difference_t p Val)).

(** [--] on a value of type [T] underflows a signed subtraction exactly
    where [++] overflows a signed addition. *)
Definition decrement_overflows (p : abi) (T : itype) : bool :=
  is_signed p T && (width p T =? width p (arith_type p T Int)).

(** The values [l], then the rest of a run. *)
Definition prepend {A : Type} (l : list A) (r : option (outcome (list A)))
  : option (outcome (list A)) :=
  match r with
  | Some (Ok l') => Some (Ok (l ++ l'))
  | _ => r
  end.

(* ================================================================== *)
(** * The worked examples of section 8 *)
(* ================================================================== *)

Example ints_3_7 :
  (r <- ints (@CInt LP64 Int 3) (CInt 7) ;; take_view.elements r)
  = Ok [CInt 3; CInt 4; CInt 5; CInt 6; CInt 7].
Proof. reflexivity. Qed.

Example ints_3_advanced_3_times :
  (s <- iota_view.nexts 3 (iota_fn.call1 (@CInt LP64 Int 3)) ;;
   Ok (iota_view.current s))
  = Ok (CInt 6).
Proof. reflexivity. Qed.

Example iota_bool_is_closed :
  (r <- iota (@CInt LP64 Bool 0) (@CInt LP64 Bool 1) ;;
   match iota_elements 2 r with Some l => l | None => Undefined end)
  = Ok [CInt 0; CInt 1].
Proof. reflexivity. Qed.

Example iota_mixed_types_is_closed :
  iota (@CInt LP64 Int 3) (@CInt LP64 Long 5)
  = Ok (Closed (closed_iota_view.make (CInt 3) (CInt 5)))
  /\ closed_iota_view.elements 3 (closed_iota_view.make (@CInt LP64 Int 3) (@CInt LP64 Long 5))
     = Some (Ok [CInt 3; CInt 4; CInt 5]).
Proof. split; reflexivity. Qed.

Example pointer_distance :
  iota_view.distance_to (iota_view.mk (Ptr 16)) (iota_view.mk (Ptr 40))
  = Ok (@CInt LP64 (ptrdiff_t LP64) 24).
Proof. reflexivity. Qed.

(* ================================================================== *)
(** * Arithmetic of the built-in types *)
(* ================================================================== *)

(** Replace closed powers of two, and closed type expressions, by their values. *)
Ltac eval_pows :=
  repeat match goal with
         | |- context [2 ^ ?n] =>
             let v := eval vm_compute in (2 ^ n) in change (2 ^ n) with v
         | H : context [2 ^ ?n] |- _ =>
             let v := eval vm_compute in (2 ^ n) in change (2 ^ n) with v in H
         end.

Ltac eval_types :=
  repeat match goal with
         | |- context [arith_type ?p ?X ?Y] =>
             let v := eval vm_compute in (arith_type p X Y) in
             change (arith_type p X Y) with v
         | |- context [iota_difference_t ?p ?X] =>
             let v := eval vm_compute in (iota_difference_t p X) in
             change (iota_difference_t p X) with v
         | H : context [arith_type ?p ?X ?Y] |- _ =>
             let v := eval vm_compute in (arith_type p X Y) in
             change (arith_type p X Y) with v in H
         | H : context [iota_difference_t ?p ?X] |- _ =>
             let v := eval vm_compute in (iota_difference_t p X) in
             change (iota_difference_t p X) with v in H
         end.

Ltac bool_to_prop :=
  repeat match goal with
         | H : (_ && _) = true |- _ => apply andb_true_iff in H; destruct H
         | H : (_ <=? _) = true |- _ => apply Z.leb_le in H
         | H : (_ <=? _) = false |- _ => apply Z.leb_gt in H
         | H : (_ <? _) = true |- _ => apply Z.ltb_lt in H
         | H : (_ <? _) = false |- _ => apply Z.ltb_ge in H
         | H : (_ =? _) = true |- _ => apply Z.eqb_eq in H
         | H : (_ =? _) = false |- _ => apply Z.eqb_neq in H
         end.

Ltac unfold_limits :=
  cbv [valid zval in_range min_val max_val width sizeof CHAR_BIT is_signed] in *;
  eval_pows.

Ltac zsolve := bool_to_prop; Z.div_mod_to_equations; lia.

Lemma in_range_iff p T z :
  in_range p T z = true <-> min_val p T <= z <= max_val p T.
Proof.
  unfold in_range. rewrite andb_true_iff, !Z.leb_le. tauto.
Qed.

Lemma convert_id p T z : in_range p T z = true -> convert p T z = z.
Proof.
  intros H. destruct p, T; unfold_limits; cbv [convert is_signed wrap_signed width sizeof CHAR_BIT];
    eval_pows; try zsolve.
  all: destruct (z =? 0) eqn:E; zsolve.
Qed.

Lemma convert_in_range p T z : in_range p T (convert p T z) = true.
Proof.
  apply in_range_iff.
  destruct p, T; cbv [convert is_signed wrap_signed width sizeof CHAR_BIT min_val max_val];
    eval_pows; try zsolve.
  all: destruct (z =? 0); lia.
Qed.

Ltac unfold_values :=
  cbv [iota_view.advance iota_view.distance_to iota_view.current iota_view.value_
       iota_minus add_assign pre_inc equal_to
       cint_RandomAccessIota cint_InputIota cint_EqualityComparable
       iota_minus_integral iota_minus_signed iota_minus_unsigned
       c_pre_inc c_add_assign c_sub c_add c_eq c_ge arith cast bind
       zval one] in *.

Ltac prove_range :=
  apply in_range_iff; cbv [min_val max_val width sizeof CHAR_BIT is_signed];
  eval_pows; zsolve.

Ltac range_hyps :=
  repeat match goal with
         | H : valid _ |- _ => apply in_range_iff in H
         | H : in_range _ _ _ = true |- _ => apply in_range_iff in H
         end;
  cbv [zval min_val max_val width sizeof CHAR_BIT is_signed] in *; eval_pows.

(** Drop the conversions that keep the value, decide the range tests that
    the hypotheses decide. *)
Ltac simpl_ints :=
  repeat match goal with
         | |- context [convert ?p ?T ?z] =>
             rewrite (@convert_id p T z) by prove_range
         | |- context [in_range ?p ?T ?z] =>
             rewrite (proj2 (in_range_iff p T z)) by
               (cbv [min_val max_val width sizeof CHAR_BIT is_signed]; eval_pows; zsolve)
         | H : context [convert ?p ?T ?z] |- _ =>
             rewrite (@convert_id p T z) in H by prove_range
         | H : context [in_range ?p ?T ?z] |- _ =>
             rewrite (proj2 (in_range_iff p T z)) in H by
               (cbv [min_val max_val width sizeof CHAR_BIT is_signed]; eval_pows; zsolve)
         end.

Ltac split_ifs :=
  repeat match goal with
         | H : context [if ?c then _ else _] |- _ => destruct c eqn:?
         | |- context [if ?c then _ else _] => destruct c eqn:?
         end.

Ltac unfold_ints :=
  cbv [convert in_range min_val max_val width sizeof CHAR_BIT is_signed wrap_signed] in *;
  eval_pows.

Ltac inj_ok :=
  repeat match goal with
         | H : Ok _ = Ok _ |- _ => injection H as H
         | H : CInt _ = CInt _ |- _ => injection H as H
         | H : Undefined = Ok _ |- _ => discriminate H
         | H : AssertionFailure = Ok _ |- _ => discriminate H
         | H : ?x = ?e |- _ => is_var x; subst x
         | H : ?e = ?x |- _ => is_var x; subst x
         end.

Lemma in_range_false_iff p T z :
  in_range p T z = false <-> ~ (min_val p T <= z <= max_val p T).
Proof.
  rewrite <- in_range_iff. destruct (in_range p T z); split; congruence.
Qed.

Ltac peel :=
  repeat match goal with
         | |- Ok _ = Ok _ => apply f_equal
         | |- CInt _ = CInt _ => apply f_equal
         | |- iota_view.mk _ = iota_view.mk _ => apply f_equal
         end.

Ltac case_range :=
  match goal with
  | H : context [if in_range ?p ?T ?z then _ else _] |- _ =>
      let E := fresh "E" in
      destruct (in_range p T z) eqn:E;
      [apply in_range_iff in E | apply in_range_false_iff in E]
  | |- context [if in_range ?p ?T ?z then _ else _] =>
      let E := fresh "E" in
      destruct (in_range p T z) eqn:E;
      [apply in_range_iff in E | apply in_range_false_iff in E]
  end;
  cbv [min_val max_val width sizeof CHAR_BIT is_signed] in *; eval_pows;
  cbv beta iota in *.

(** A goal about the built-in operators at a concrete ABI and type. *)
Ltac int_crush :=
  unfold_values; eval_types; range_hyps;
  repeat (simpl_ints; cbv beta iota in * );
  repeat (case_range; inj_ok; try discriminate;
          repeat (simpl_ints; cbv beta iota in * ));
  inj_ok;
  repeat (simpl_ints; cbv beta iota in * );
  unfold_ints; split_ifs; peel; try discriminate; try reflexivity; try zsolve.

(** On values of one type, [==] is equality of the values. *)
Lemma c_eq_valid p T (a b : cint p T) :
  valid a -> valid b -> c_eq a b = (zval a =? zval b).
Proof.
  destruct a as [a], b as [b]. intros Ha Hb.
  destruct p, T; unfold_values; eval_types; range_hyps; simpl_ints; reflexivity.
Qed.

Lemma c_eq_refl p T (a : cint p T) : c_eq a a = true.
Proof. unfold c_eq. apply Z.eqb_refl. Qed.

(** On values of one type, [>=] is the order of the values. *)
Lemma c_ge_valid p T (a b : cint p T) :
  valid a -> valid b -> c_ge a b = (zval b <=? zval a).
Proof.
  destruct a as [a], b as [b]. intros Ha Hb.
  destruct p, T; unfold_values; eval_types; range_hyps; simpl_ints; reflexivity.
Qed.

(** Below the maximum, [++] adds one. *)
Lemma c_pre_inc_succ p T (a : cint p T) :
  valid a -> zval a < max_val p T -> c_pre_inc a = Ok (CInt (zval a + 1)).
Proof.
  destruct a as [a]. intros Ha Hlt.
  destruct p, T; int_crush.
Qed.

(** For [a <= b] with a representable difference, [iota_minus(b, a)] is
    [b - a]. *)
Lemma iota_minus_le p Val (a b : cint p Val) :
  valid a -> valid b -> zval a <= zval b ->
  zval b - zval a <= max_val p (iota_difference_t p Val) ->
  iota_minus_integral b a = Ok (CInt (zval b - zval a)).
Proof.
  destruct a as [a], b as [b]. intros Ha Hb Hle Hfit.
  destruct p, Val; eval_types; int_crush.
Qed.

(** [iota_minus(a, a)] is zero, whatever [a]. *)
Lemma iota_minus_same p Val (a : cint p Val) :
  iota_minus_integral a a = Ok (CInt 0).
Proof.
  destruct a as [a].
  destruct p, Val; unfold_values; eval_types; cbv [is_signed]; cbv beta iota;
    rewrite ?Z.sub_diag; reflexivity.
Qed.

(** The result of [iota_minus] is a value of the difference type. *)
Lemma iota_minus_valid p Val (a b : cint p Val) n :
  iota_minus_integral b a = Ok n -> valid n.
Proof.
  unfold iota_minus_integral, iota_minus_signed, iota_minus_unsigned.
  destruct (is_signed p Val);
    (destruct (c_sub _ _); cbn [bind]; intros E; try discriminate E;
     injection E as <-; apply convert_in_range).
Qed.

(** [a += iota_minus(b, a)] gives [b]. *)
Lemma add_assign_minus p Val (a b : cint p Val) n :
  valid a -> valid b -> models_RandomAccessIota Val = true ->
  iota_minus_integral b a = Ok n -> c_add_assign a n = Ok b.
Proof.
  destruct a as [a], b as [b], n as [n].
  intros Ha Hb Hra Hd.
  destruct p, Val; try discriminate Hra; clear Hra; int_crush.
Qed.

(** [d + 1] for a count that fits, and its storage in the difference type. *)
Lemma count_plus_one p Val (d : Z) :
  0 <= d -> d < max_val p (iota_difference_t p Val) ->
  c_add (@CInt p (iota_difference_t p Val) d) (@one p) = Ok (CInt (d + 1)).
Proof.
  intros H0 Hlt.
  destruct p, Val; eval_types; int_crush.
Qed.

Lemma count_stored p Val (d : Z) :
  0 <= d -> d < max_val p (iota_difference_t p Val) ->
  cast (iota_difference_t p Val)
       (@CInt p (arith_type p (iota_difference_t p Val) Int) (d + 1))
  = CInt (d + 1).
Proof.
  intros H0 Hlt.
  destruct p, Val; eval_types; int_crush.
Qed.

(* ================================================================== *)
(** * Lists of consecutive values *)
(* ================================================================== *)

Lemma interval_length p T lo n : length (interval p T lo n) = n.
Proof. revert lo. induction n as [|n IH]; intros lo; cbn; [reflexivity | now rewrite IH]. Qed.

Lemma interval_last p T lo n d :
  last (interval p T lo (S n)) d = CInt (lo + Z.of_nat n).
Proof.
  revert lo. induction n as [|n IH]; intros lo.
  - cbn. now rewrite Z.add_0_r.
  - change (interval p T lo (S (S n))) with (CInt lo :: interval p T (lo + 1) (S n)).
    cbn [last]. destruct (interval p T (lo + 1) (S n)) eqn:E; [discriminate E|].
    rewrite <- E, IH. f_equal. lia.
Qed.

Lemma interval_nth p T lo n k d :
  (k < n)%nat -> nth k (interval p T lo n) d = CInt (lo + Z.of_nat k).
Proof.
  revert lo k. induction n as [|n IH]; intros lo k Hk; [lia|].
  destruct k as [|k]; cbn [interval nth].
  - now rewrite Z.add_0_r.
  - rewrite IH by lia. f_equal. lia.
Qed.

(* ================================================================== *)
(** * The closed generator, for any value type *)
(* ================================================================== *)

Section ClosedGeneric.
Context {Val Val2 : Type} `{InputIota Val} `{EqualityComparable Val Val2}.
Import closed_iota_view.

Lemma elements_done fuel (c : t Val Val2) :
  done c = true -> elements fuel c = Some (Ok []).
Proof. intros Hd. destruct fuel; cbn; now rewrite Hd. Qed.

Lemma next_keeps_done (c c' : t Val Val2) :
  next c = Ok c' -> done c = true -> done c' = true.
Proof.
  unfold next. destruct (equal_to (from_ c) (to_ c)).
  - now intros [= <-].
  - destruct (pre_inc (from_ c)); cbn; intros E; try discriminate E.
    injection E as <-. auto.
Qed.

Lemma next_keeps_to (c c' : t Val Val2) :
  next c = Ok c' -> to_ c' = to_ c.
Proof.
  unfold next. destruct (equal_to (from_ c) (to_ c)).
  - now intros [= <-].
  - destruct (pre_inc (from_ c)); cbn; intros E; try discriminate E.
    now injection E as <-.
Qed.

Lemma nexts_keep_done k : forall (c c' : t Val Val2),
  nexts k c = Ok c' -> done c = true -> done c' = true.
Proof.
  induction k as [|k IH]; intros c c'; cbn [nexts].
  - now intros [= <-].
  - destruct (next c) as [s| |] eqn:E; cbn [bind]; intros Hk Hd; try discriminate Hk.
    eapply IH; [exact Hk | eapply next_keeps_done; eauto].
Qed.

Lemma nexts_at_bound k (from : Val) (to : Val2) (d : bool) :
  equal_to from to = true ->
  nexts (S k) (mk from to d) = Ok (mk from to true).
Proof.
  intros Heq. revert d. induction k as [|k IH]; intros d.
  - cbn. unfold next. cbn. now rewrite Heq.
  - change (nexts (S (S k)) (mk from to d))
      with (s <- next (mk from to d) ;; nexts (S k) s).
    unfold next at 1. cbn [from_ to_]. rewrite Heq. cbn [bind]. apply IH.
Qed.

(** A run that ends has the shape [from :: ...] and stops right after the
    first value equal to the bound. *)
Lemma elements_shape fuel : forall (c : t Val Val2) l,
  done c = false -> elements fuel c = Some (Ok l) ->
  exists l' x,
    l = l' ++ [x] /\ equal_to x (to_ c) = true /\
    Forall (fun y => equal_to y (to_ c) = false) l' /\
    hd x l' = from_ c.
Proof.
  induction fuel as [|fuel IH]; intros c l Hd; cbn [elements]; rewrite Hd.
  - discriminate.
  - unfold next. destruct (equal_to (from_ c) (to_ c)) eqn:Heq.
    + rewrite elements_done by reflexivity. intros [= <-].
      exists [], (from_ c). cbn. auto.
    + destruct (pre_inc (from_ c)) as [v| |] eqn:Ev; cbn [bind]; try discriminate.
      destruct (elements fuel _) as [[l0| |]|] eqn:El; try discriminate.
      intros [= <-].
      apply IH in El; [|exact Hd].
      destruct El as (l' & x & -> & Hx & Hall & Hhd).
      exists (current c :: l'), x. cbn in *. auto.
Qed.
End ClosedGeneric.

(* ================================================================== *)
(** * Both bounded views on built-in integers *)
(* ================================================================== *)

(** The closed view over one integral type walks from [from] to [to]. *)
Lemma closed_elements_interval p T n : forall from to : Z,
  in_range p T from = true -> in_range p T to = true ->
  to - from = Z.of_nat n ->
  closed_iota_view.elements (S n)
    (closed_iota_view.make (@CInt p T from) (@CInt p T to))
  = Some (Ok (interval p T from (S n))).
Proof.
  unfold closed_iota_view.make.
  induction n as [|n IH]; intros from to Hf Ht Hn.
  - assert (to = from) as -> by lia.
    cbn. unfold closed_iota_view.next. cbn. now rewrite c_eq_refl.
  - change (closed_iota_view.elements (S (S n)) ?c)
      with (if closed_iota_view.done c then Some (Ok [])
            else match closed_iota_view.next c with
                 | Ok s => match closed_iota_view.elements (S n) s with
                           | Some (Ok l) => Some (Ok (closed_iota_view.current c :: l))
                           | r => r
                           end
                 | Undefined => Some Undefined
                 | AssertionFailure => Some AssertionFailure
                 end).
    cbn [closed_iota_view.done closed_iota_view.done_].
    unfold closed_iota_view.next.
    cbn [closed_iota_view.from_ closed_iota_view.to_ closed_iota_view.done_
         equal_to pre_inc cint_EqualityComparable cint_InputIota].
    rewrite c_eq_valid by assumption. cbn [zval].
    replace (from =? to) with false by (symmetry; apply Z.eqb_neq; lia).
    assert (Hmax : to <= max_val p T) by (apply in_range_iff in Ht; lia).
    rewrite c_pre_inc_succ by (assumption || (cbn [zval]; lia)).
    cbn [bind zval].
    rewrite IH; [reflexivity | | assumption | lia].
    apply in_range_iff. apply in_range_iff in Hf. lia.
Qed.

(** The counted view reads [n] consecutive values, with [n - 1] steps. *)
Lemma first_n_interval p T n : forall from : Z,
  in_range p T from = true -> from + Z.of_nat n <= max_val p T ->
  take_view.first_n (S n) (iota_view.mk (@CInt p T from))
  = Ok (interval p T from (S n)).
Proof.
  induction n as [|n IH]; intros from Hf Hn.
  - reflexivity.
  - change (take_view.first_n (S (S n)) ?v)
      with (s <- iota_view.next v ;;
            l <- take_view.first_n (S n) s ;;
            Ok (iota_view.current v :: l)).
    unfold iota_view.next.
    cbn [iota_view.value_ pre_inc cint_InputIota].
    rewrite c_pre_inc_succ by (assumption || (cbn [zval]; lia)).
    cbn [bind zval]. rewrite IH; [reflexivity | | lia].
    apply in_range_iff. apply in_range_iff in Hf. lia.
Qed.

(* ================================================================== *)
(** * The difference type *)
(* ================================================================== *)

Lemma itype_eqb_refl T : itype_eqb T T = true.
Proof. destruct T; reflexivity. Qed.

Lemma itype_eqb_sym T U : itype_eqb T U = itype_eqb U T.
Proof. destruct T, U; reflexivity. Qed.

Lemma models_RandomAccessIota_iff Val :
  models_RandomAccessIota Val = true <-> iota_concept Val = concepts.RandomAccessIota.
Proof. destruct Val; cbn; split; congruence. Qed.

Lemma not_RandomAccessIota_bool Val :
  models_RandomAccessIota Val = false -> Val = Bool.
Proof. destruct Val; cbn; congruence. Qed.

(** C6. For every random-access integral value type the resolved distance
    type is the one section 4.2 describes: the signed counterpart of the
    natural subtraction result type when that differs from the value type,
    otherwise the smallest of the 8, 16, 32, 64-bit signed fast types whose
    width exceeds the natural result's bit-width, the 64-bit one when no
    smaller one does. *)
Theorem iota_difference_resolved (p : abi) (Val : itype) :
  models_RandomAccessIota Val = true ->
  iota_difference_t p Val = spec_distance_type p Val.
Proof.
  intros Hra. apply models_RandomAccessIota_iff in Hra.
  unfold iota_difference_t, iota_difference, iota_difference_, spec_distance_type.
  rewrite Hra. unfold is_integral, bits.
  rewrite (itype_eqb_sym (difference_t p Val) Val).
  destruct (itype_eqb Val (difference_t p Val)); cbn [negb]; [|reflexivity].
  cbn [find].
  destruct (sizeof p (difference_t p Val) * CHAR_BIT <? 8); [reflexivity|].
  destruct (sizeof p (difference_t p Val) * CHAR_BIT <? 16); [reflexivity|].
  destruct (sizeof p (difference_t p Val) * CHAR_BIT <? 32); reflexivity.
Qed.

Lemma iota_difference_resolved_int :
  models_RandomAccessIota Int = true /\
  iota_difference_t LP64 Int = spec_distance_type LP64 Int.
Proof.
  split; [reflexivity | apply (@iota_difference_resolved LP64 Int); reflexivity].
Defined.

(** C7 (counterexample). For [long long] on LP64 the distance type is the
    64-bit [int_fast64_t], which does not hold [LLONG_MAX - LLONG_MIN]. *)
Lemma long_long_span_exceeds_distance :
  iota_difference_t LP64 LLong = int_fast64_t LP64 /\
  max_val LP64 LLong - min_val LP64 LLong = 2 ^ 64 - 1 /\
  max_val LP64 (iota_difference_t LP64 LLong) = 2 ^ 63 - 1 /\
  ~ holds_full_span LP64 LLong.
Proof.
  split; [reflexivity|]. split; [reflexivity|]. split; [reflexivity|].
  unfold holds_full_span. eval_types. unfold_limits. lia.
Qed.

(** C7 (amended). For every integral value type, on each of the four ABIs,
    the distance type holds [max(Value) - min(Value)] exactly when it is
    wider than the value type.  That is the case for every integral type
    narrower than 64 bits except [wchar_t] and [char32_t] where these have
    32 bits, whose distance type is the 32-bit [int]; it is not the case for
    the 64-bit types. *)
Theorem span_fits_iff_distance_wider (p : abi) (Val : itype) :
  (holds_full_span p Val <-> width p Val < width p (iota_difference_t p Val)) /\
  (holds_full_span p Val <->
   width p Val < 64 /\ ~ ((Val = WChar \/ Val = Char32) /\ width p Val = 32)).
Proof.
  unfold holds_full_span.
  destruct p, Val; eval_types; unfold_limits;
    (split; split; [lia | lia | intros H | intros [H1 H2]]);
    try lia;
    try (split; [lia | intros [[E | E] _]; discriminate E]);
    try (exfalso; apply H2; split; [auto | reflexivity]).
Qed.

(* ================================================================== *)
(** * [iota_minus] on the built-in types *)
(* ================================================================== *)

(** Widening a signed value to the distance type keeps it. *)
Lemma widen_exact p Val (v : cint p Val) :
  is_signed p Val = true -> valid v ->
  cast (iota_difference_t p Val) v = CInt (zval v).
Proof.
  destruct v as [v]. intros Hs Hv.
  destruct p, Val; try discriminate Hs; clear Hs; int_crush.
Qed.

(** Signed values: the exact difference when the distance type holds it,
    otherwise an overflow. *)
Lemma iota_minus_signed_exact p Val (v0 v1 : cint p Val) :
  is_signed p Val = true -> valid v0 -> valid v1 ->
  iota_minus_integral v0 v1 =
  if in_range p (iota_difference_t p Val) (zval v0 - zval v1)
  then Ok (CInt (zval v0 - zval v1)) else Undefined.
Proof.
  destruct v0 as [v0], v1 as [v1]. intros Hs H0 H1.
  destruct p, Val; try discriminate Hs; clear Hs; int_crush.
Qed.

(** Unsigned values: [v0 - v1] as the language computes it, converted. *)
Lemma iota_minus_unsigned_exact p Val (v0 v1 : cint p Val) :
  is_signed p Val = false -> valid v0 -> valid v1 ->
  iota_minus_integral v0 v1 =
  Ok (CInt (convert p (iota_difference_t p Val)
                    (natural_difference p Val (zval v0) (zval v1)))).
Proof.
  destruct v0 as [v0], v1 as [v1]. intros Hs H0 H1.
  destruct p, Val; try discriminate Hs; clear Hs;
    cbv [natural_difference difference_t bits]; eval_types;
    cbv [difference_t] in *; eval_types; int_crush.
Qed.

(** C5 (counterexample). Read literally, section 4.2 subtracts unsigned
    values in their own unsigned domain and converts afterwards.  For
    [unsigned char] the code subtracts after promotion to [int]:
    [iota_minus(3, 5)] is [-2], not [254].  Reading the unsigned result as
    a two's-complement pattern instead fails for [unsigned int], where the
    64-bit distance type keeps [4294967294]. *)
Lemma unsigned_minus_not_in_unsigned_domain :
  (valid (@CInt LP64 UChar 3) /\ valid (@CInt LP64 UChar 5) /\
   iota_minus_integral (@CInt LP64 UChar 3) (CInt 5) = Ok (CInt (-2)) /\
   spec_unsigned_minus LP64 UChar 3 5 = 254 /\
   iota_minus_integral (@CInt LP64 UChar 3) (CInt 5)
   <> Ok (CInt (spec_unsigned_minus LP64 UChar 3 5))) /\
  (valid (@CInt LP64 UInt 3) /\ valid (@CInt LP64 UInt 5) /\
   iota_minus_integral (@CInt LP64 UInt 3) (CInt 5) = Ok (CInt 4294967294) /\
   spec_unsigned_minus_twos LP64 UInt 3 5 = -2 /\
   iota_minus_integral (@CInt LP64 UInt 3) (CInt 5)
   <> Ok (CInt (spec_unsigned_minus_twos LP64 UInt 3 5))).
Proof. repeat split; vm_compute; try reflexivity; discriminate. Qed.

(** C5 (amended). [iota_minus(v0, v1)] by cases.  A non-integral value
    type: its own [v0 - v1].  A signed integral type: both operands are
    converted to the distance type, which keeps their values, and subtracted
    there; the result is the exact difference, or an overflow when the
    distance type cannot hold it.  An unsigned integral type: [v0 - v1] is
    evaluated first, modulo [2^bits] when the natural result type is
    unsigned and exactly when the value type promotes to [int], and the
    result is then converted to the distance type. *)
Theorem iota_minus_by_cases (p : abi) (Val : itype) (v0 v1 : cint p Val) :
  valid v0 -> valid v1 ->
  (forall (V D : Type) (minus : V -> V -> outcome D) (x y : V),
      iota_minus_non_integral minus x y = minus x y) /\
  (is_signed p Val = true ->
     iota_minus v0 v1 =
       (r <- c_sub (cast (iota_difference_t p Val) v0)
                   (cast (iota_difference_t p Val) v1) ;;
        Ok (cast (iota_difference_t p Val) r)) /\
     cast (iota_difference_t p Val) v0 = CInt (zval v0) /\
     cast (iota_difference_t p Val) v1 = CInt (zval v1) /\
     iota_minus v0 v1 =
       (if in_range p (iota_difference_t p Val) (zval v0 - zval v1)
        then Ok (CInt (zval v0 - zval v1)) else Undefined)) /\
  (is_signed p Val = false ->
     iota_minus v0 v1 =
       (r <- c_sub v0 v1 ;; Ok (cast (iota_difference_t p Val) r)) /\
     iota_minus v0 v1 =
       Ok (CInt (convert p (iota_difference_t p Val)
                         (natural_difference p Val (zval v0) (zval v1))))).
Proof.
  intros H0 H1.
  change (@iota_minus p (cint p Val) (iota_difference_t p Val) _ v0 v1)
    with (iota_minus_integral v0 v1).
  split; [reflexivity|]. split; intros Hs.
  - repeat split.
    + unfold iota_minus_integral. now rewrite Hs.
    + now apply widen_exact.
    + now apply widen_exact.
    + now apply iota_minus_signed_exact.
  - split.
    + unfold iota_minus_integral. now rewrite Hs.
    + now apply iota_minus_unsigned_exact.
Qed.

Lemma iota_minus_by_cases_uchar :
  valid (@CInt LP64 UChar 3) /\ valid (@CInt LP64 UChar 5) /\
  is_signed LP64 UChar = false /\
  iota_minus (@CInt LP64 UChar 3) (CInt 5) =
    Ok (CInt (convert LP64 (iota_difference_t LP64 UChar)
                      (natural_difference LP64 UChar 3 5))).
Proof.
  split; [reflexivity|]. split; [reflexivity|]. split; [reflexivity|].
  apply (proj2 (proj2 (@iota_minus_by_cases LP64 UChar (CInt 3) (CInt 5)
                         eq_refl eq_refl)) eq_refl).
Defined.

(* ================================================================== *)
(** * Distance and seek on the unbounded generator *)
(* ================================================================== *)

(** A value type narrower than its distance type never overflows it. *)
Lemma narrow_difference_fits p Val (a b : cint p Val) :
  width p Val < width p (iota_difference_t p Val) -> valid a -> valid b ->
  in_range p (iota_difference_t p Val) (zval b - zval a) = true.
Proof.
  destruct a as [a], b as [b]. intros Hw Ha Hb. apply in_range_iff.
  destruct p, Val; revert Hw; eval_types; intros Hw; range_hyps; unfold_limits; lia.
Qed.

(** C8 (counterexample). On LP64 the distance type of [long long] is 64
    bits wide: the distance from [LLONG_MIN] to [0] overflows, and the
    round trip has no defined result. *)
Lemma seek_by_distance_overflows :
  valid (@CInt LP64 LLong (- 2 ^ 63)) /\ valid (@CInt LP64 LLong 0) /\
  models_RandomAccessIota LLong = true /\
  seek_by_distance (iota_view.mk (@CInt LP64 LLong (- 2 ^ 63)))
                   (iota_view.mk (@CInt LP64 LLong 0))
  <> Ok (iota_view.current (iota_view.mk (@CInt LP64 LLong 0))).
Proof.
  repeat split. vm_compute. discriminate.
Qed.

(** C8 (amended). For every random-access integral value type and any two
    positions [a] and [b], seeking [a] by [a.distanceTo(b)] makes its
    current value that of [b] whenever the value type is unsigned, and for a
    signed value type whenever the distance type holds the difference
    [b - a]; in the one remaining case, a signed difference the distance
    type cannot hold, the distance is undefined.  The round trip also holds
    for pointers whose difference is a [ptrdiff_t]. *)
Theorem seek_by_distance_roundtrip (p : abi) (Val : itype) (a b : cint p Val) :
  valid a -> valid b -> models_RandomAccessIota Val = true ->
  (is_signed p Val = false \/
   in_range p (iota_difference_t p Val) (zval b - zval a) = true ->
   seek_by_distance (iota_view.mk a) (iota_view.mk b)
   = Ok (iota_view.current (iota_view.mk b))) /\
  seek_by_distance (iota_view.mk a) (iota_view.mk b)
  = (if is_signed p Val && negb (in_range p (iota_difference_t p Val) (zval b - zval a))
     then Undefined else Ok (iota_view.current (iota_view.mk b))) /\
  (forall q r : pointer,
      in_range p (ptrdiff_t p) (index r - index q) = true ->
      @seek_by_distance pointer p (ptrdiff_t p) _ (iota_view.mk q) (iota_view.mk r)
      = Ok (iota_view.current (iota_view.mk r))).
Proof.
  intros Ha Hb Hra.
  assert (Hdef : forall n, iota_minus_integral b a = Ok n ->
                 seek_by_distance (iota_view.mk a) (iota_view.mk b) = Ok b).
  { intros n Hn.
    unfold seek_by_distance, iota_view.distance_to, iota_view.advance.
    cbn [iota_view.value_ iota_view.current iota_minus add_assign cint_RandomAccessIota].
    rewrite Hn. cbn [bind].
    rewrite (add_assign_minus Ha Hb Hra Hn). reflexivity. }
  assert (Hexact :
    seek_by_distance (iota_view.mk a) (iota_view.mk b)
    = (if is_signed p Val && negb (in_range p (iota_difference_t p Val) (zval b - zval a))
       then Undefined else Ok b)).
  { destruct (is_signed p Val) eqn:Hs; cbn [andb].
    - pose proof (@iota_minus_signed_exact p Val b a Hs Hb Ha) as Hm.
      destruct (in_range p (iota_difference_t p Val) (zval b - zval a)); cbn [negb].
      + eapply Hdef; exact Hm.
      + unfold seek_by_distance, iota_view.distance_to.
        cbn [iota_view.value_ iota_minus cint_RandomAccessIota].
        now rewrite Hm.
    - eapply Hdef. now apply iota_minus_unsigned_exact. }
  split; [|split].
  - intros Hfit. rewrite Hexact.
    destruct Hfit as [-> | ->]; [reflexivity | now rewrite andb_false_r].
  - exact Hexact.
  - intros [q] [r] Hfit. cbn [index] in Hfit.
    unfold seek_by_distance, iota_view.distance_to, iota_view.advance.
    cbn [iota_view.value_ iota_view.current iota_minus add_assign
         pointer_RandomAccessIota index].
    unfold iota_minus_non_integral, ptr_minus. cbn [index]. rewrite Hfit.
    cbn [bind zval iota_view.value_ iota_view.current].
    apply f_equal, f_equal. lia.
Qed.

Lemma seek_by_distance_roundtrip_int :
  valid (@CInt LP64 Int (-7)) /\ valid (@CInt LP64 Int 12) /\
  models_RandomAccessIota Int = true /\
  in_range LP64 (iota_difference_t LP64 Int) (12 - -7) = true /\
  seek_by_distance (iota_view.mk (@CInt LP64 Int (-7)))
                   (iota_view.mk (@CInt LP64 Int 12))
  = Ok (iota_view.current (iota_view.mk (@CInt LP64 Int 12))).
Proof.
  split; [reflexivity|]. split; [reflexivity|]. split; [reflexivity|].
  split; [reflexivity|].
  apply (proj1 (@seek_by_distance_roundtrip LP64 Int (CInt (-7)) (CInt 12)
                  eq_refl eq_refl eq_refl) (or_intror eq_refl)).
Defined.

(* ================================================================== *)
(** * The entry point [iota(from, to)] *)
(* ================================================================== *)

(** C1 (counterexample). On LP64, [iota(0ull, ULLONG_MAX)]: the unsigned
    difference [2^64 - 1] converts to the distance [-1], the count passed
    to the adapter is [0], and the view is empty. *)
Lemma iota_whole_unsigned_range_is_empty :
  valid (@CInt LP64 ULLong 0) /\ valid (@CInt LP64 ULLong (2 ^ 64 - 1)) /\
  zval (@CInt LP64 ULLong 0) <= zval (@CInt LP64 ULLong (2 ^ 64 - 1)) /\
  iota (@CInt LP64 ULLong 0) (@CInt LP64 ULLong (2 ^ 64 - 1))
  = Ok (Counted (take_view.mk (iota_view.mk (CInt 0)) (CInt 0))) /\
  ~ yields_inclusive_range (@CInt LP64 ULLong 0) (@CInt LP64 ULLong (2 ^ 64 - 1)).
Proof.
  split; [reflexivity|]. split; [reflexivity|]. split; [cbn; lia|].
  split; [vm_compute; reflexivity|].
  intros (fuel & r & l & Hi & He & Hlen & _).
  vm_compute in Hi. injection Hi as <-.
  vm_compute in He. injection He as <-.
  vm_compute in Hlen. discriminate Hlen.
Qed.

(** C1 (amended). For every pair [start <= end] of one integral type whose
    element count [end - start + 1] the distance type holds,
    [iota(start, end)] yields [start, start + 1, ..., end]: exactly
    [end - start + 1] elements, the last being [end]; on the random-access
    path the count handed to the adapter is [iota_minus(to, from) + 1], which
    is [end - start + 1]. *)
Theorem iota_yields_inclusive_range (p : abi) (Val : itype) (start stop : cint p Val) :
  valid start -> valid stop -> zval start <= zval stop ->
  zval stop - zval start < max_val p (iota_difference_t p Val) ->
  yields_inclusive_range start stop /\
  exists r,
    iota start stop = Ok r /\
    iota_elements (Z.to_nat (zval stop - zval start + 1)) r
    = Some (Ok (interval p Val (zval start)
                         (Z.to_nat (zval stop - zval start + 1)))) /\
    (models_RandomAccessIota Val = true ->
     (d <- iota_minus stop start ;; c_add d (@one p))
     = Ok (CInt (zval stop - zval start + 1)) /\
     r = Counted (take_view.mk (iota_view.mk start)
                               (CInt (zval stop - zval start + 1)))).
Proof.
  intros Hs He Hle Hfit.
  set (n := Z.to_nat (zval stop - zval start)).
  assert (Hn : Z.to_nat (zval stop - zval start + 1) = S n) by (subst n; lia).
  assert (Hzn : zval stop - zval start = Z.of_nat n) by (subst n; lia).
  assert (Hall : exists r,
    iota start stop = Ok r /\
    iota_elements (S n) r = Some (Ok (interval p Val (zval start) (S n))) /\
    (models_RandomAccessIota Val = true ->
     (d <- iota_minus stop start ;; c_add d (@one p))
     = Ok (CInt (zval stop - zval start + 1)) /\
     r = Counted (take_view.mk (iota_view.mk start)
                               (CInt (zval stop - zval start + 1))))).
  { destruct start as [s], stop as [e]. cbn [zval] in *.
    unfold iota, iota_fn.impl_RandomAccessIota, iota_fn.impl_InputIota.
    rewrite itype_eqb_refl, andb_true_r.
    cbn [iota_minus cint_RandomAccessIota zval].
    destruct (models_RandomAccessIota Val) eqn:Hra.
    - rewrite (@iota_minus_le p Val (CInt s) (CInt e)) by (assumption || (cbn [zval]; lia)).
      cbn [bind zval].
      rewrite (@count_plus_one p Val (e - s)) by lia.
      cbn [bind]. rewrite count_stored by lia.
      eexists. split; [reflexivity|]. split.
      + cbn [iota_elements]. unfold take_view.elements.
        cbn [take_view.n_ take_view.rng_ zval]. rewrite Hn.
        rewrite first_n_interval; [reflexivity | assumption |].
        apply in_range_iff in He. cbn [zval] in He. lia.
      + intros _. split; reflexivity.
    - eexists. split; [reflexivity|]. split; [|discriminate].
      cbn [iota_elements].
      apply closed_elements_interval; assumption. }
  split; [|rewrite Hn; exact Hall].
  destruct Hall as (r & Hi & Hel & _).
  exists (S n), r, (interval p Val (zval start) (S n)).
  split; [exact Hi|]. split; [exact Hel|]. split.
  - rewrite interval_length. lia.
  - rewrite interval_last. destruct stop as [e]. cbn [zval] in *. f_equal. lia.
Qed.

Lemma iota_yields_inclusive_range_ints :
  valid (@CInt LP64 Int 3) /\ valid (@CInt LP64 Int 7) /\
  zval (@CInt LP64 Int 3) <= zval (@CInt LP64 Int 7) /\
  zval (@CInt LP64 Int 7) - zval (@CInt LP64 Int 3)
    < max_val LP64 (iota_difference_t LP64 Int) /\
  yields_inclusive_range (@CInt LP64 Int 3) (@CInt LP64 Int 7).
Proof.
  assert (Hle : zval (@CInt LP64 Int 3) <= zval (@CInt LP64 Int 7))
    by (cbn; lia).
  split; [reflexivity|]. split; [reflexivity|]. split; [exact Hle|].
  split; [reflexivity|].
  apply (proj1 (@iota_yields_inclusive_range LP64 Int (CInt 3) (CInt 7)
                  eq_refl eq_refl Hle eq_refl)).
Defined.

(** A value type narrower than its distance type, as the standard integer
    types narrower than 64 bits are, always meets the hypothesis on the
    count. *)
Lemma narrow_count_fits p Val (start stop : cint p Val) :
  width p Val < width p (iota_difference_t p Val) -> valid start -> valid stop ->
  zval stop - zval start < max_val p (iota_difference_t p Val).
Proof.
  destruct start as [s], stop as [e]. intros Hw Hs He.
  destruct p, Val; revert Hw; eval_types; intros Hw; range_hyps; unfold_limits; lia.
Qed.

Lemma itype_eqb_eq T U : itype_eqb T U = true -> T = U.
Proof. destruct T, U; cbn; congruence. Qed.

Lemma max_val_pos p T : 0 < max_val p T.
Proof. destruct p, T; unfold_limits; lia. Qed.

(** C3. Whenever [start == end], [iota(start, end)] yields exactly one
    element, [start]: on the closed view for any value types, and through
    [iota] on the built-in integers, whichever view it picks.  A closed view
    is never empty: it starts out not done, so any run that ends begins
    with [from] and has length at least 1. *)
Theorem iota_singleton :
  (forall (Val Val2 : Type) (I : InputIota Val) (E : EqualityComparable Val Val2)
          (from : Val) (to : Val2),
      closed_iota_view.done (iota_fn.impl_InputIota from to) = false /\
      (forall fuel l,
          closed_iota_view.elements fuel (iota_fn.impl_InputIota from to) = Some (Ok l) ->
          exists tl, l = from :: tl /\ (1 <= length l)%nat) /\
      (equal_to from to = true ->
       closed_iota_view.elements 1 (iota_fn.impl_InputIota from to) = Some (Ok [from]))) /\
  (forall (p : abi) (Val Val2 : itype) (start : cint p Val) (stop : cint p Val2),
      valid start -> valid stop -> c_eq start stop = true ->
      exists r, iota start stop = Ok r /\ iota_elements 1 r = Some (Ok [start])).
Proof.
  split.
  - intros Val Val2 I E from to. split; [reflexivity|]. split.
    + intros fuel l Hl.
      apply elements_shape in Hl; [|reflexivity].
      destruct Hl as (l' & x & -> & _ & _ & Hhd). cbn in Hhd.
      destruct l' as [|y l']; cbn in Hhd |- *; subst.
      * exists []. split; [reflexivity | lia].
      * eexists. split; [reflexivity | lia].
    + intros Heq. cbn. unfold closed_iota_view.next. cbn. now rewrite Heq.
  - intros p Val Val2 start stop Hs He Heq. unfold iota.
    destruct (models_RandomAccessIota Val && itype_eqb Val Val2) eqn:Hsel.
    + apply andb_true_iff in Hsel. destruct Hsel as [_ Hty].
      apply itype_eqb_eq in Hty. subst Val2.
      rewrite c_eq_valid in Heq by assumption. apply Z.eqb_eq in Heq.
      destruct start as [s], stop as [e]. cbn [zval] in Heq |- *. subst e.
      unfold iota_fn.impl_RandomAccessIota.
      cbn [iota_minus cint_RandomAccessIota].
      rewrite iota_minus_same. cbn [bind].
      rewrite (@count_plus_one p Val 0) by (pose proof (max_val_pos p (iota_difference_t p Val)); lia).
      cbn [bind].
      rewrite (@count_stored p Val 0) by (pose proof (max_val_pos p (iota_difference_t p Val)); lia).
      eexists. split; reflexivity.
    + eexists. split; [reflexivity|].
      cbn. unfold closed_iota_view.next. cbn. now rewrite Heq.
Qed.

Lemma iota_singleton_int :
  valid (@CInt LP64 Int 4) /\ c_eq (@CInt LP64 Int 4) (@CInt LP64 Int 4) = true /\
  exists r, iota (@CInt LP64 Int 4) (@CInt LP64 Int 4) = Ok r /\
            iota_elements 1 r = Some (Ok [CInt 4]).
Proof.
  split; [reflexivity|]. split; [reflexivity|].
  apply (proj2 iota_singleton LP64 Int Int (CInt 4) (CInt 4) eq_refl eq_refl eq_refl).
Defined.

(* ================================================================== *)
(** * The unbounded generator *)
(* ================================================================== *)

Lemma nexts_pre_incs {Val : Type} `{InputIota Val} k : forall v : Val,
  iota_view.nexts k (iota_view.mk v) = (w <- pre_incs k v ;; Ok (iota_view.mk w)).
Proof.
  induction k as [|k IH]; intros v; cbn [iota_view.nexts pre_incs bind]; [reflexivity|].
  unfold iota_view.next. cbn [iota_view.value_].
  destruct (pre_inc v); cbn [bind]; auto.
Qed.

Lemma pre_incs_add p T k : forall start : Z,
  in_range p T start = true -> start + Z.of_nat k <= max_val p T ->
  pre_incs k (@CInt p T start) = Ok (CInt (start + Z.of_nat k)).
Proof.
  induction k as [|k IH]; intros start Hs Hk; cbn [pre_incs].
  - now rewrite Z.add_0_r.
  - cbn [pre_inc cint_InputIota].
    rewrite c_pre_inc_succ by (assumption || (cbn [zval]; lia)).
    cbn [bind zval]. rewrite IH.
    + f_equal. f_equal. lia.
    + apply in_range_iff. apply in_range_iff in Hs. lia.
    + lia.
Qed.

Lemma convert_unsigned p T z :
  is_signed p T = false -> T <> Bool -> convert p T z = z mod 2 ^ width p T.
Proof. intros Hs Hb. destruct T; try congruence; cbn [convert]; now rewrite Hs. Qed.

(** On an unsigned type other than [bool], [++] wraps around. *)
Lemma c_pre_inc_unsigned p T (a : cint p T) :
  valid a -> is_signed p T = false -> T <> Bool ->
  c_pre_inc a = Ok (CInt ((zval a + 1) mod 2 ^ width p T)).
Proof.
  destruct a as [a]. intros Ha Hs Hb.
  destruct p, T; try discriminate Hs; try congruence; clear Hs Hb; int_crush.
Qed.

Lemma pre_incs_unsigned p T k : forall start : Z,
  in_range p T start = true -> is_signed p T = false -> T <> Bool ->
  pre_incs k (@CInt p T start) = Ok (CInt ((start + Z.of_nat k) mod 2 ^ width p T)).
Proof.
  induction k as [|k IH]; intros start Hr Hs Hb; cbn [pre_incs].
  - rewrite Z.add_0_r, <- convert_unsigned by assumption.
    now rewrite convert_id.
  - cbn [pre_inc cint_InputIota].
    rewrite c_pre_inc_unsigned by assumption.
    cbn [bind zval]. rewrite IH; try assumption.
    + f_equal. f_equal. rewrite Zplus_mod_idemp_l. f_equal. lia.
    + rewrite <- convert_unsigned by assumption. apply convert_in_range.
Qed.

(** [++] on a built-in integer, in full. *)
Lemma c_pre_inc_total p T (a : cint p T) :
  valid a ->
  c_pre_inc a =
  if increment_overflows p T && (max_val p T <? zval a + 1)
  then Undefined else Ok (CInt (convert p T (zval a + 1))).
Proof.
  destruct a as [a]. intros Ha.
  destruct p, T;
    match goal with
    | |- context [increment_overflows ?p ?T] =>
        let v := eval vm_compute in (increment_overflows p T) in
        change (increment_overflows p T) with v
    end; cbv [andb]; int_crush.
Qed.

Lemma convert_succ_add p T s k :
  in_range p T s = true -> 0 <= k ->
  convert p T (convert p T (s + 1) + k) = convert p T (s + 1 + k).
Proof.
  intros Hs Hk.
  destruct p, T; range_hyps; unfold_ints; split_ifs; zsolve.
Qed.

Lemma pre_incs_total p T k : forall start : Z,
  in_range p T start = true ->
  pre_incs k (@CInt p T start) =
  if increment_overflows p T && (max_val p T <? start + Z.of_nat k)
  then Undefined else Ok (CInt (convert p T (start + Z.of_nat k))).
Proof.
  induction k as [|k IH]; intros start Hs; cbn [pre_incs].
  - rewrite Z.add_0_r, convert_id by assumption.
    replace (max_val p T <? start) with false
      by (symmetry; apply Z.ltb_ge; apply in_range_iff in Hs; lia).
    now rewrite andb_false_r.
  - cbn [pre_inc cint_InputIota]. rewrite c_pre_inc_total by assumption.
    cbn [zval].
    replace (start + Z.of_nat (S k)) with (start + 1 + Z.of_nat k) by lia.
    destruct (increment_overflows p T) eqn:Hov; cbn [andb].
    + destruct (max_val p T <? start + 1) eqn:Hm; cbn [bind].
      * replace (max_val p T <? start + 1 + Z.of_nat k) with true
          by (symmetry; apply Z.ltb_lt; apply Z.ltb_lt in Hm; lia).
        reflexivity.
      * assert (Hr : in_range p T (start + 1) = true).
        { apply in_range_iff. apply in_range_iff in Hs. apply Z.ltb_ge in Hm. lia. }
        rewrite convert_id by assumption. rewrite IH by assumption.
        reflexivity.
    + cbn [bind]. rewrite IH by apply convert_in_range.
      cbn [andb]. now rewrite convert_succ_add by (assumption || lia).
Qed.

(** C9 (counterexample). The values are not [start + k] for every [k]:
    on [int] the advance past [INT_MAX] is a signed overflow, undefined;
    on [bool] the value stays [true], so from [false] the second advance
    gives [1], not [2]. *)
Lemma unbounded_stops_at_the_maximum :
  (valid (@CInt LP64 Int 2147483647) /\
   max_val LP64 Int = 2147483647 /\
   iota_view.nexts 1 (iota_fn.call1 (@CInt LP64 Int 2147483647)) = Undefined /\
   iota_view.nexts 1 (iota_fn.call1 (@CInt LP64 Int 2147483647))
   <> Ok (iota_view.mk (CInt (2147483647 + 1)))) /\
  (valid (@CInt LP64 Bool 0) /\
   iota_view.nexts 2 (iota_fn.call1 (@CInt LP64 Bool 0)) = Ok (iota_view.mk (CInt 1)) /\
   iota_view.nexts 2 (iota_fn.call1 (@CInt LP64 Bool 0))
   <> Ok (iota_view.mk (CInt (0 + 2)))).
Proof.
  repeat split; try (vm_compute; discriminate).
Qed.

(** C9 (amended). The unbounded generator is never done, in any state;
    after [k] advances its value is [start] with [++] applied [k] times.
    On the built-in integers that is [start + k] for every [k] with
    [start + k] a value of the type.  Past that it is [start + k] modulo
    [2^width] on an unsigned type other than [bool], and in general
    [start + k] converted to the type ([true] on [bool]), unless a signed
    addition overflowed on the way, which is undefined. *)
Theorem iota_view_unbounded :
  (forall (Val : Type) (s : iota_view.t Val), iota_view.done s = false) /\
  (forall (Val : Type) (I : InputIota Val) (start : Val) (k : nat),
      iota_view.nexts k (iota_fn.call1 start)
      = (w <- pre_incs k start ;; Ok (iota_view.mk w)) /\
      (forall s, iota_view.nexts k (iota_fn.call1 start) = Ok s ->
                 iota_view.done s = false)) /\
  (forall (p : abi) (Val : itype) (start : cint p Val) (k : nat),
      valid start ->
      (zval start + Z.of_nat k <= max_val p Val ->
       iota_view.nexts k (iota_fn.call1 start)
       = Ok (iota_view.mk (CInt (zval start + Z.of_nat k)))) /\
      (is_signed p Val = false -> Val <> Bool ->
       iota_view.nexts k (iota_fn.call1 start)
       = Ok (iota_view.mk (CInt ((zval start + Z.of_nat k) mod 2 ^ width p Val)))) /\
      iota_view.nexts k (iota_fn.call1 start)
      = (if increment_overflows p Val && (max_val p Val <? zval start + Z.of_nat k)
         then Undefined
         else Ok (iota_view.mk (CInt (convert p Val (zval start + Z.of_nat k)))))).
Proof.
  split; [reflexivity|]. split.
  - intros Val I start k. split; [apply nexts_pre_incs | reflexivity].
  - intros p Val [s] k Hs. unfold iota_fn.call1. cbn [zval]. split; [|split].
    + intros Hk. rewrite nexts_pre_incs, pre_incs_add by assumption. reflexivity.
    + intros Hu Hb. rewrite nexts_pre_incs, pre_incs_unsigned by assumption. reflexivity.
    + rewrite nexts_pre_incs, pre_incs_total by assumption.
      destruct (increment_overflows p Val && (max_val p Val <? s + Z.of_nat k)); reflexivity.
Qed.

Lemma iota_view_unbounded_ints :
  valid (@CInt LP64 Int 3) /\ 3 + Z.of_nat 3 <= max_val LP64 Int /\
  iota_view.nexts 3 (iota_fn.call1 (@CInt LP64 Int 3))
  = Ok (iota_view.mk (CInt (3 + Z.of_nat 3))).
Proof.
  assert (Hk : zval (@CInt LP64 Int 3) + Z.of_nat 3 <= max_val LP64 Int)
    by (vm_compute; discriminate).
  split; [reflexivity|]. split; [exact Hk|].
  apply (proj1 (proj2 (proj2 iota_view_unbounded) LP64 Int (CInt 3) 3%nat eq_refl) Hk).
Defined.

(* ================================================================== *)
(** * The closed generator: advancing and seeking *)
(* ================================================================== *)

(** C2. [next] of the closed generator: at [from == to] it sets [done_] and
    leaves [from_]; otherwise it increments [from_] and leaves [done_].
    [done_] once set stays set under any number of further calls, and at the
    bound these leave [from_] where it is.  Hence a run that ends lists the
    bound exactly once, as its last value; between integers [from <= to] of
    one type the run does end, with [from, ..., to]. *)
Theorem closed_next_policy :
  (forall (Val Val2 : Type) (I : InputIota Val) (E : EqualityComparable Val Val2)
          (c : closed_iota_view.t Val Val2),
      (equal_to (closed_iota_view.from_ c) (closed_iota_view.to_ c) = true ->
       closed_iota_view.next c
       = Ok (closed_iota_view.mk (closed_iota_view.from_ c)
                                 (closed_iota_view.to_ c) true)) /\
      (equal_to (closed_iota_view.from_ c) (closed_iota_view.to_ c) = false ->
       closed_iota_view.next c
       = (v <- pre_inc (closed_iota_view.from_ c) ;;
          Ok (closed_iota_view.mk v (closed_iota_view.to_ c)
                                  (closed_iota_view.done_ c)))) /\
      (closed_iota_view.done c = true ->
       forall k c', closed_iota_view.nexts k c = Ok c' ->
                    closed_iota_view.done c' = true) /\
      (equal_to (closed_iota_view.from_ c) (closed_iota_view.to_ c) = true ->
       forall k, closed_iota_view.nexts (S k) c
                 = Ok (closed_iota_view.mk (closed_iota_view.from_ c)
                                           (closed_iota_view.to_ c) true)) /\
      (closed_iota_view.done c = false ->
       forall fuel l, closed_iota_view.elements fuel c = Some (Ok l) ->
         exists l' x, l = l' ++ [x] /\
                      equal_to x (closed_iota_view.to_ c) = true /\
                      Forall (fun y => equal_to y (closed_iota_view.to_ c) = false) l')) /\
  (forall (p : abi) (T : itype) (from to : cint p T),
      valid from -> valid to -> zval from <= zval to ->
      closed_iota_view.elements (Z.to_nat (zval to - zval from + 1))
                                (closed_iota_view.make from to)
      = Some (Ok (interval p T (zval from) (Z.to_nat (zval to - zval from + 1)))) /\
      closed_iota_view.nexts (Z.to_nat (zval to - zval from + 1))
                             (closed_iota_view.make from to)
      = Ok (closed_iota_view.mk to to true)).
Proof.
  split.
  - intros Val Val2 I E c. repeat split.
    + intros Heq. unfold closed_iota_view.next. now rewrite Heq.
    + intros Heq. unfold closed_iota_view.next. now rewrite Heq.
    + intros Hd k c' Hk. eapply nexts_keep_done; eauto.
    + intros Heq k. destruct c as [f t d]. now apply nexts_at_bound.
    + intros Hd fuel l Hl.
      destruct (elements_shape _ _ Hd Hl) as (l' & x & ? & ? & ? & _). eauto.
  - intros p T [f] [t] Hf Ht Hle. unfold valid in Hf, Ht. cbn [zval] in *.
    replace (Z.to_nat (t - f + 1)) with (S (Z.to_nat (t - f))) by lia.
    split; [apply closed_elements_interval; (assumption || lia)|].
    remember (Z.to_nat (t - f)) as n eqn:Hn.
    assert (Hd : t - f = Z.of_nat n) by lia. clear Hn Hle.
    unfold closed_iota_view.make.
    revert f Hf Hd. induction n as [|n IH]; intros f Hf Hd.
    + assert (t = f) as -> by lia.
      apply nexts_at_bound. apply c_eq_refl.
    + change (closed_iota_view.nexts (S (S n)) ?c)
        with (s <- closed_iota_view.next c ;; closed_iota_view.nexts (S n) s).
      unfold closed_iota_view.next.
      cbn [closed_iota_view.from_ closed_iota_view.to_ closed_iota_view.done_
           equal_to pre_inc cint_EqualityComparable cint_InputIota].
      rewrite c_eq_valid by assumption. cbn [zval].
      replace (f =? t) with false by (symmetry; apply Z.eqb_neq; lia).
      assert (Hmax : t <= max_val p T) by (apply in_range_iff in Ht; lia).
      rewrite c_pre_inc_succ by (assumption || (cbn [zval]; lia)).
      cbn [bind zval]. apply IH; [|lia].
      apply in_range_iff. apply in_range_iff in Hf. lia.
Qed.

Lemma closed_next_policy_ints :
  valid (@CInt LP64 Int 3) /\ valid (@CInt LP64 Int 5) /\
  zval (@CInt LP64 Int 3) <= zval (@CInt LP64 Int 5) /\
  closed_iota_view.elements 3 (closed_iota_view.make (@CInt LP64 Int 3) (@CInt LP64 Int 5))
  = Some (Ok [CInt 3; CInt 4; CInt 5]) /\
  closed_iota_view.nexts 3 (closed_iota_view.make (@CInt LP64 Int 3) (@CInt LP64 Int 5))
  = Ok (closed_iota_view.mk (CInt 5) (CInt 5) true).
Proof.
  assert (Hle : zval (@CInt LP64 Int 3) <= zval (@CInt LP64 Int 5)) by (cbn; lia).
  split; [reflexivity|]. split; [reflexivity|]. split; [exact Hle|].
  apply (proj2 closed_next_policy LP64 Int (CInt 3) (CInt 5) eq_refl eq_refl Hle).
Defined.

(** C4. [advance(n)] of the closed generator checks
    [iota_minus(to_, from_) >= n] first.  When the check fails the call is
    an assertion failure, as for the generator over [0, 5] asked to seek
    [10]; when it holds the call is [from_ += n] and nothing else. *)
Theorem closed_advance_checked :
  (forall (Val : Type) (p : abi) (DT : itype) (R : RandomAccessIota p Val DT)
          (c : closed_iota_view.t Val Val) (n d : cint p DT),
      iota_minus (closed_iota_view.to_ c) (closed_iota_view.from_ c) = Ok d ->
      (c_ge d n = false -> closed_iota_view.advance c n = AssertionFailure) /\
      (c_ge d n = true ->
       closed_iota_view.advance c n
       = (v <- add_assign (closed_iota_view.from_ c) n ;;
          Ok (closed_iota_view.mk v (closed_iota_view.to_ c)
                                  (closed_iota_view.done_ c))))) /\
  (forall (p : abi) (Val : itype) (c : closed_iota_view.t (cint p Val) (cint p Val))
          (n d : cint p (iota_difference_t p Val)),
      valid n ->
      iota_minus (closed_iota_view.to_ c) (closed_iota_view.from_ c) = Ok d ->
      (zval d < zval n -> closed_iota_view.advance c n = AssertionFailure) /\
      (zval n <= zval d ->
       closed_iota_view.advance c n
       = (v <- c_add_assign (closed_iota_view.from_ c) n ;;
          Ok (closed_iota_view.mk v (closed_iota_view.to_ c)
                                  (closed_iota_view.done_ c))))) /\
  (forall p : abi,
      closed_iota_view.advance
        (closed_iota_view.make (@CInt p Int 0) (@CInt p Int 5)) (CInt 10)
      = AssertionFailure).
Proof.
  split; [|split].
  - intros Val p DT R c n d Hd. unfold closed_iota_view.advance. rewrite Hd.
    cbn [bind]. split; intros Hge; rewrite Hge; reflexivity.
  - intros p Val c n d Hn Hd.
    assert (Hvd : valid d) by (eapply iota_minus_valid; exact Hd).
    unfold closed_iota_view.advance. rewrite Hd. cbn [bind].
    rewrite c_ge_valid by assumption.
    split; intros Hc.
    + replace (zval n <=? zval d) with false by (symmetry; apply Z.leb_gt; lia).
      reflexivity.
    + replace (zval n <=? zval d) with true by (symmetry; apply Z.leb_le; lia).
      reflexivity.
  - intros p. destruct p; vm_compute; reflexivity.
Qed.

Lemma closed_advance_checked_ints :
  valid (@CInt LP64 (iota_difference_t LP64 Int) 10) /\
  iota_minus (@CInt LP64 Int 5) (@CInt LP64 Int 0) = Ok (CInt 5) /\
  5 < 10 /\
  closed_iota_view.advance
    (closed_iota_view.make (@CInt LP64 Int 0) (@CInt LP64 Int 5)) (CInt 10)
  = AssertionFailure.
Proof.
  split; [reflexivity|]. split; [reflexivity|]. split; [reflexivity|].
  apply (proj1 (proj1 (proj2 closed_advance_checked) LP64 Int
                  (closed_iota_view.make (CInt 0) (CInt 5)) (CInt 10) (CInt 5)
                  eq_refl eq_refl) eq_refl).
Defined.

(** C10. [advance(n)] of the closed generator changes [from_] only: [to_]
    and [done_] are the same before and after.  Seeking an active generator
    by exactly [iota_minus(to_, from_)] puts [from_] on the bound and leaves
    it active; the next plain [next] finishes it. *)
Theorem closed_advance_frame :
  (forall (Val : Type) (p : abi) (DT : itype) (R : RandomAccessIota p Val DT)
          (c c' : closed_iota_view.t Val Val) (n : cint p DT),
      closed_iota_view.advance c n = Ok c' ->
      closed_iota_view.to_ c' = closed_iota_view.to_ c /\
      closed_iota_view.done c' = closed_iota_view.done c) /\
  (forall (p : abi) (Val : itype) (from to : cint p Val)
          (n : cint p (iota_difference_t p Val)),
      valid from -> valid to -> models_RandomAccessIota Val = true ->
      iota_minus to from = Ok n ->
      closed_iota_view.advance (closed_iota_view.make from to) n
      = Ok (closed_iota_view.mk to to false) /\
      closed_iota_view.done (closed_iota_view.mk to to false) = false /\
      closed_iota_view.next (closed_iota_view.mk to to false)
      = Ok (closed_iota_view.mk to to true)).
Proof.
  split.
  - intros Val p DT R c c' n. unfold closed_iota_view.advance.
    destruct (iota_minus _ _) as [d| |]; cbn [bind]; try discriminate.
    destruct (RANGES_ASSERT _) as [[]| |]; cbn [bind]; try discriminate.
    destruct (add_assign _ _) as [v| |]; cbn [bind]; try discriminate.
    intros [= <-]. split; reflexivity.
  - intros p Val from to n Hf Ht Hra Hn.
    change (@iota_minus p (cint p Val) (iota_difference_t p Val) _ to from)
      with (iota_minus_integral to from) in Hn.
    split; [|split; [reflexivity|]].
    + unfold closed_iota_view.advance, closed_iota_view.make.
      cbn [closed_iota_view.from_ closed_iota_view.to_ closed_iota_view.done_
           iota_minus add_assign cint_RandomAccessIota].
      rewrite Hn. cbn [bind].
      assert (Hvn : valid n) by (eapply iota_minus_valid; exact Hn).
      rewrite c_ge_valid, Z.leb_refl by assumption. cbn [RANGES_ASSERT bind].
      rewrite (add_assign_minus Hf Ht Hra Hn). reflexivity.
    + unfold closed_iota_view.next.
      cbn [closed_iota_view.from_ closed_iota_view.to_ equal_to cint_EqualityComparable].
      now rewrite c_eq_refl.
Qed.

Lemma closed_advance_frame_ints :
  valid (@CInt LP64 Int 0) /\ valid (@CInt LP64 Int 5) /\
  models_RandomAccessIota Int = true /\
  iota_minus (@CInt LP64 Int 5) (@CInt LP64 Int 0) = Ok (CInt 5) /\
  closed_iota_view.advance
    (closed_iota_view.make (@CInt LP64 Int 0) (@CInt LP64 Int 5)) (CInt 5)
  = Ok (closed_iota_view.mk (CInt 5) (CInt 5) false).
Proof.
  split; [reflexivity|]. split; [reflexivity|]. split; [reflexivity|].
  split; [reflexivity|].
  apply (proj1 (proj2 closed_advance_frame LP64 Int (CInt 0) (CInt 5) (CInt 5)
                  eq_refl eq_refl eq_refl eq_refl)).
Defined.

(* ================================================================== *)
(** * Further properties of the header *)
(* ================================================================== *)

Ltac eval_flag f :=
  repeat match goal with
         | |- context [f ?p ?T] =>
             let v := eval vm_compute in (f p T) in change (f p T) with v
         | H : context [f ?p ?T] |- _ =>
             let v := eval vm_compute in (f p T) in change (f p T) with v in H
         end.

(** X2. The distance type of every integral value type is signed, at
    least as wide as [int], and never narrower than the value type. *)
Theorem iota_difference_signed_and_wide (p : abi) (Val : itype) :
  is_signed p (iota_difference_t p Val) = true /\
  width p Int <= width p (iota_difference_t p Val) /\
  width p Val <= width p (iota_difference_t p Val) /\
  promote p (iota_difference_t p Val) = iota_difference_t p Val.
Proof.
  destruct p, Val; vm_compute; repeat split; congruence.
Qed.

(** X6. [iota_minus] against the mathematical difference.  When the
    natural result of the subtraction is unsigned and narrower than the
    distance type ([unsigned int] everywhere, [unsigned long] where it has 32
    bits), the distance is the difference modulo [2^bits]: never negative,
    and [v0 - v1 + 2^bits] for [v0 < v1].  For every other integral type it
    is the exact difference whenever the distance type holds that. *)
Theorem iota_minus_against_difference (p : abi) (Val : itype) (v0 v1 : cint p Val) :
  valid v0 -> valid v1 ->
  (zero_extends p Val = true ->
   iota_minus_integral v0 v1 = Ok (CInt ((zval v0 - zval v1) mod 2 ^ bits p Val)) /\
   0 <= (zval v0 - zval v1) mod 2 ^ bits p Val /\
   (zval v0 < zval v1 ->
    iota_minus_integral v0 v1 = Ok (CInt (zval v0 - zval v1 + 2 ^ bits p Val)))) /\
  (zero_extends p Val = false ->
   in_range p (iota_difference_t p Val) (zval v0 - zval v1) = true ->
   iota_minus_integral v0 v1 = Ok (CInt (zval v0 - zval v1))).
Proof.
  destruct v0 as [v0], v1 as [v1]. intros H0 H1. split.
  - intros Hz. 
    destruct p, Val; try discriminate Hz; clear Hz;
      cbv [bits difference_t]; eval_types; cbv [sizeof CHAR_BIT];
      (split; [|split; [|intros Hlt]]); int_crush.
  - intros Hz Hfit.
    destruct p, Val; try discriminate Hz; clear Hz; revert Hfit; eval_types;
      intros Hfit; int_crush.
Qed.

Lemma iota_minus_against_difference_uint :
  valid (@CInt LP64 UInt 3) /\ valid (@CInt LP64 UInt 5) /\
  zero_extends LP64 UInt = true /\ 3 < 5 /\
  iota_minus_integral (@CInt LP64 UInt 3) (@CInt LP64 UInt 5)
  = Ok (CInt (3 - 5 + 2 ^ bits LP64 UInt)).
Proof.
  split; [reflexivity|]. split; [reflexivity|]. split; [reflexivity|].
  split; [reflexivity|].
  apply (proj2 (proj2 (proj1 (@iota_minus_against_difference LP64 UInt (CInt 3) (CInt 5)
                               eq_refl eq_refl) eq_refl)) eq_refl).
Defined.

(** X1. [ints(from, to)] counts for every integral type, [bool] included:
    for [from <= to] with a count the distance type holds, it reads
    [from, ..., to], the same values [iota(from, to)] yields, although for
    [bool] the two entry points return different views. *)
Theorem ints_yields_inclusive_range (p : abi) (Val : itype) (from to : cint p Val) :
  valid from -> valid to -> zval from <= zval to ->
  zval to - zval from < max_val p (iota_difference_t p Val) ->
  ints from to
  = Ok (take_view.mk (iota_view.mk from) (CInt (zval to - zval from + 1))) /\
  (r <- ints from to ;; take_view.elements r)
  = Ok (interval p Val (zval from) (Z.to_nat (zval to - zval from + 1))) /\
  (exists r, iota from to = Ok r /\
             iota_elements (Z.to_nat (zval to - zval from + 1)) r
             = Some (r' <- ints from to ;; take_view.elements r')).
Proof.
  intros Hf Ht Hle Hfit.
  assert (Hints : ints from to
    = Ok (take_view.mk (iota_view.mk from) (CInt (zval to - zval from + 1)))).
  { unfold ints. cbn [iota_minus cint_RandomAccessIota].
    rewrite iota_minus_le by (assumption || lia). cbn [bind zval].
    rewrite (@count_plus_one p Val (zval to - zval from)) by lia. cbn [bind].
    rewrite count_stored by lia. reflexivity. }
  assert (Hel : (r <- ints from to ;; take_view.elements r)
    = Ok (interval p Val (zval from) (Z.to_nat (zval to - zval from + 1)))).
  { rewrite Hints. cbn [bind]. unfold take_view.elements.
    cbn [take_view.n_ take_view.rng_ zval].
    replace (Z.to_nat (zval to - zval from + 1))
      with (S (Z.to_nat (zval to - zval from))) by lia.
    destruct from as [f], to as [t]. cbn [zval] in *.
    apply first_n_interval; [assumption|].
    apply in_range_iff in Ht. cbn [zval] in Ht. lia. }
  split; [exact Hints|]. split; [exact Hel|].
  rewrite Hel.
  destruct (models_RandomAccessIota Val) eqn:Hra.
  - unfold iota. rewrite Hra, itype_eqb_refl. cbn [andb].
    destruct to as [t]. cbn [zval] in *.
    change (iota_fn.impl_RandomAccessIota from (@CInt p Val t)) with (ints from (@CInt p Val t)).
    rewrite Hints. cbn [bind]. eexists. split; [reflexivity|].
    cbn [iota_elements]. f_equal.
    rewrite Hints in Hel. exact Hel.
  - unfold iota. rewrite Hra. cbn [andb].
    eexists. split; [reflexivity|]. cbn [iota_elements].
    unfold iota_fn.impl_InputIota.
    destruct from as [f], to as [t]. cbn [zval] in *.
    replace (Z.to_nat (t - f + 1)) with (S (Z.to_nat (t - f))) by lia.
    apply closed_elements_interval; (assumption || lia).
Qed.

Lemma ints_yields_inclusive_range_bool :
  valid (@CInt LP64 Bool 0) /\ valid (@CInt LP64 Bool 1) /\
  zval (@CInt LP64 Bool 0) <= zval (@CInt LP64 Bool 1) /\
  zval (@CInt LP64 Bool 1) - zval (@CInt LP64 Bool 0)
    < max_val LP64 (iota_difference_t LP64 Bool) /\
  ints (@CInt LP64 Bool 0) (@CInt LP64 Bool 1)
  = Ok (take_view.mk (iota_view.mk (CInt 0)) (CInt (1 - 0 + 1))).
Proof.
  assert (Hle : zval (@CInt LP64 Bool 0) <= zval (@CInt LP64 Bool 1)) by (cbn; lia).
  split; [reflexivity|]. split; [reflexivity|]. split; [exact Hle|].
  split; [reflexivity|].
  apply (proj1 (@ints_yields_inclusive_range LP64 Bool (CInt 0) (CInt 1)
                  eq_refl eq_refl Hle eq_refl)).
Defined.

(** [a += n] for a sum the value type holds. *)
Lemma c_add_assign_exact p Val (a : cint p Val) (n : cint p (iota_difference_t p Val)) :
  valid a -> valid n -> in_range p Val (zval a + zval n) = true ->
  c_add_assign a n = Ok (CInt (zval a + zval n)).
Proof.
  destruct a as [a], n as [n]. intros Ha Hn Hs. revert Hn. unfold valid.
  destruct p, Val; eval_types; intros Hn; int_crush.
Qed.

(** X3. On the unbounded generator a seek is repeated stepping: for
    [0 <= n] with [start + n] a value of the type, [advance(n)] gives the
    state [n] calls of [next] give, at [start + n]. *)
Theorem advance_is_repeated_next (p : abi) (Val : itype) (start : cint p Val)
        (n : cint p (iota_difference_t p Val)) :
  models_RandomAccessIota Val = true ->
  valid start -> valid n -> 0 <= zval n ->
  zval start + zval n <= max_val p Val ->
  iota_view.advance (iota_view.mk start) n
  = Ok (iota_view.mk (CInt (zval start + zval n))) /\
  iota_view.advance (iota_view.mk start) n
  = iota_view.nexts (Z.to_nat (zval n)) (iota_view.mk start).
Proof.
  intros _ Hs Hn H0 Hmax.
  assert (Ha : iota_view.advance (iota_view.mk start) n
               = Ok (iota_view.mk (CInt (zval start + zval n)))).
  { unfold iota_view.advance. cbn [iota_view.value_ add_assign cint_RandomAccessIota].
    rewrite c_add_assign_exact; [reflexivity | assumption | assumption |].
    apply in_range_iff. apply in_range_iff in Hs. lia. }
  split; [exact Ha|]. rewrite Ha.
  destruct start as [s]. cbn [zval] in *.
  rewrite nexts_pre_incs, pre_incs_add by (assumption || lia).
  cbn [bind]. do 3 f_equal. lia.
Qed.

Lemma advance_is_repeated_next_int :
  valid (@CInt LP64 Int 3) /\ valid (@CInt LP64 (iota_difference_t LP64 Int) 4) /\
  iota_view.advance (iota_view.mk (@CInt LP64 Int 3))
                    (@CInt LP64 (iota_difference_t LP64 Int) 4)
  = iota_view.nexts 4 (iota_view.mk (@CInt LP64 Int 3)).
Proof.
  assert (H0 : 0 <= zval (@CInt LP64 (iota_difference_t LP64 Int) 4)) by (cbn; lia).
  assert (Hm : zval (@CInt LP64 Int 3) + zval (@CInt LP64 (iota_difference_t LP64 Int) 4)
               <= max_val LP64 Int) by (vm_compute; discriminate).
  split; [reflexivity|]. split; [reflexivity|].
  apply (proj2 (@advance_is_repeated_next LP64 Int (CInt 3) (CInt 4)
                  eq_refl eq_refl eq_refl H0 Hm)).
Defined.

(** [--] on a built-in integer other than [bool], in full. *)
Lemma c_pre_dec_total p T (a : cint p T) :
  valid a -> T <> Bool ->
  c_pre_dec a =
  if decrement_overflows p T && (zval a - 1 <? min_val p T)
  then Undefined else Ok (CInt (convert p T (zval a - 1))).
Proof.
  destruct a as [a]. intros Ha Hb.
  destruct p, T; try congruence; clear Hb; eval_flag decrement_overflows; cbv [andb];
    cbv [c_pre_dec c_sub_assign]; int_crush.
Qed.

Lemma convert_succ_pred p T a :
  in_range p T a = true -> T <> Bool ->
  convert p T (convert p T (a + 1) - 1) = a /\
  convert p T (convert p T (a - 1) + 1) = a.
Proof.
  intros Ha Hb.
  destruct p, T; try congruence; clear Hb; range_hyps; unfold_ints; split; zsolve.
Qed.

(** X4. On every integral type that has [--], stepping forward and back
    returns to the start: [prev] undoes [next] and [next] undoes [prev],
    wrap-around included.  The one exception is the signed overflow itself:
    [next] at the maximum, or [prev] at the minimum, of a signed type as wide
    as its promotion is undefined. *)
Theorem prev_undoes_next (p : abi) (Val : itype) (a : cint p Val) :
  valid a -> models_RandomAccessIota Val = true ->
  (s <- iota_view.next (iota_view.mk a) ;; iota_view.prev s)
  = (if increment_overflows p Val && (zval a =? max_val p Val)
     then Undefined else Ok (iota_view.mk a)) /\
  (s <- iota_view.prev (iota_view.mk a) ;; iota_view.next s)
  = (if decrement_overflows p Val && (zval a =? min_val p Val)
     then Undefined else Ok (iota_view.mk a)).
Proof.
  intros Ha Hra.
  assert (Hb : Val <> Bool) by (intros ->; discriminate Hra).
  unfold iota_view.next, iota_view.prev.
  cbn [iota_view.value_ pre_inc pre_dec cint_InputIota cint_BidirectionalIota].
  rewrite c_pre_inc_total, c_pre_dec_total by assumption.
  destruct a as [a]. cbn [zval]. unfold valid in Ha. cbn [zval] in Ha.
  pose proof (proj1 (in_range_iff p Val a) Ha) as Hr.
  destruct (@convert_succ_pred p Val a Ha Hb) as [Hsp Hps].
  change (decrement_overflows p Val) with (increment_overflows p Val).
  destruct (increment_overflows p Val) eqn:Hov; cbn [andb bind iota_view.value_].
  - split.
    + destruct (max_val p Val <? a + 1) eqn:Hm.
      * replace (a =? max_val p Val) with true
          by (symmetry; apply Z.eqb_eq; apply Z.ltb_lt in Hm; lia).
        reflexivity.
      * apply Z.ltb_ge in Hm.
        replace (a =? max_val p Val) with false by (symmetry; apply Z.eqb_neq; lia).
        cbn [bind iota_view.value_].
        rewrite c_pre_dec_total by (apply convert_in_range || assumption).
        change (decrement_overflows p Val) with (increment_overflows p Val).
        rewrite Hov. cbn [andb zval].
        rewrite (convert_id p Val (a + 1)) by (apply in_range_iff; lia).
        replace (a + 1 - 1) with a by lia.
        replace (a <? min_val p Val) with false by (symmetry; apply Z.ltb_ge; lia).
        now rewrite convert_id.
    + destruct (a - 1 <? min_val p Val) eqn:Hm.
      * replace (a =? min_val p Val) with true
          by (symmetry; apply Z.eqb_eq; apply Z.ltb_lt in Hm; lia).
        reflexivity.
      * apply Z.ltb_ge in Hm.
        replace (a =? min_val p Val) with false by (symmetry; apply Z.eqb_neq; lia).
        cbn [bind iota_view.value_].
        rewrite c_pre_inc_total by apply convert_in_range.
        rewrite Hov. cbn [andb zval].
        rewrite (convert_id p Val (a - 1)) by (apply in_range_iff; lia).
        replace (a - 1 + 1) with a by lia.
        replace (max_val p Val <? a) with false by (symmetry; apply Z.ltb_ge; lia).
        now rewrite convert_id.
  - split.
    + rewrite c_pre_dec_total by (apply convert_in_range || assumption).
      change (decrement_overflows p Val) with (increment_overflows p Val).
      rewrite Hov. cbn [andb zval]. now rewrite Hsp.
    + rewrite c_pre_inc_total by apply convert_in_range.
      rewrite Hov. cbn [andb zval]. now rewrite Hps.
Qed.

Lemma prev_undoes_next_uint_max :
  valid (@CInt LP64 UInt 4294967295) /\ models_RandomAccessIota UInt = true /\
  (s <- iota_view.next (iota_view.mk (@CInt LP64 UInt 4294967295)) ;; iota_view.prev s)
  = (if increment_overflows LP64 UInt && (4294967295 =? max_val LP64 UInt)
     then Undefined else Ok (iota_view.mk (CInt 4294967295))).
Proof.
  split; [reflexivity|]. split; [reflexivity|].
  apply (proj1 (@prev_undoes_next LP64 UInt (CInt 4294967295) eq_refl eq_refl)).
Defined.

(** X5. Two positions of the unbounded generator compare equal exactly
    when the distance between them is zero. *)
Theorem equal_iff_distance_zero (p : abi) (Val : itype) (a b : cint p Val) :
  valid a -> valid b -> models_RandomAccessIota Val = true ->
  iota_view.equal (iota_view.mk a) (iota_view.mk b) = true <->
  iota_view.distance_to (iota_view.mk a) (iota_view.mk b) = Ok (CInt 0).
Proof.
  intros Ha Hb Hra.
  unfold iota_view.equal, iota_view.distance_to.
  cbn [iota_view.value_ equal_to iota_minus cint_EqualityComparable cint_RandomAccessIota].
  rewrite c_eq_valid by assumption. rewrite Z.eqb_eq.
  split.
  - destruct a as [a], b as [b]. cbn [zval]. intros ->. apply iota_minus_same.
  - intros Hd. destruct a as [a], b as [b]. cbn [zval].
    destruct p, Val; try discriminate Hra; clear Hra; int_crush.
Qed.

Lemma equal_iff_distance_zero_int :
  valid (@CInt LP64 Int 9) /\ models_RandomAccessIota Int = true /\
  (iota_view.equal (iota_view.mk (@CInt LP64 Int 9)) (iota_view.mk (@CInt LP64 Int 9)) = true <->
   iota_view.distance_to (iota_view.mk (@CInt LP64 Int 9)) (iota_view.mk (@CInt LP64 Int 9))
   = Ok (CInt 0)).
Proof.
  split; [reflexivity|]. split; [reflexivity|].
  apply (@equal_iff_distance_zero LP64 Int (CInt 9) (CInt 9) eq_refl eq_refl eq_refl).
Defined.

(* ================================================================== *)
(** * The closed generator away from [from <= to] *)
(* ================================================================== *)

Lemma interval_app p T n : forall lo m,
  interval p T lo n ++ interval p T (lo + Z.of_nat n) m = interval p T lo (n + m).
Proof.
  induction n as [|n IH]; intros lo m.
  - cbn. now rewrite Z.add_0_r.
  - cbn [interval app Nat.add]. f_equal.
    rewrite <- IH. do 2 f_equal. lia.
Qed.

(** One step of a run that is not at the bound. *)
Lemma closed_elements_step p T (from to : cint p T) v fuel :
  c_eq from to = false -> c_pre_inc from = Ok v ->
  closed_iota_view.elements (S fuel) (closed_iota_view.mk from to false)
  = prepend [from] (closed_iota_view.elements fuel (closed_iota_view.mk v to false)).
Proof.
  intros He Hv. cbn [closed_iota_view.elements closed_iota_view.done closed_iota_view.done_].
  unfold closed_iota_view.next.
  cbn [closed_iota_view.from_ closed_iota_view.to_ closed_iota_view.done_
       equal_to pre_inc cint_EqualityComparable cint_InputIota].
  rewrite He, Hv. cbn [bind closed_iota_view.current closed_iota_view.from_].
  destruct (closed_iota_view.elements fuel _) as [[l| |]|]; reflexivity.
Qed.

(** [n] steps below the maximum that do not meet the bound. *)
Lemma closed_elements_prefix p T (to : Z) n : forall (from : Z) fuel,
  in_range p T from = true -> in_range p T to = true ->
  from + Z.of_nat n <= max_val p T ->
  (to < from \/ from + Z.of_nat n <= to) ->
  closed_iota_view.elements (n + fuel)
    (closed_iota_view.mk (@CInt p T from) (@CInt p T to) false)
  = prepend (interval p T from n)
      (closed_iota_view.elements fuel
         (closed_iota_view.mk (@CInt p T (from + Z.of_nat n)) (@CInt p T to) false)).
Proof.
  induction n as [|n IH]; intros from fuel Hf Ht Hmax Hto.
  - cbn [Nat.add interval]. rewrite Z.add_0_r.
    destruct (closed_iota_view.elements fuel _) as [[l| |]|]; reflexivity.
  - cbn [Nat.add].
    rewrite (@closed_elements_step p T (CInt from) (CInt to) (CInt (from + 1)) (n + fuel)).
    + rewrite IH; try assumption; try lia.
      * replace (from + 1 + Z.of_nat n) with (from + Z.of_nat (S n)) by lia.
        cbn [interval].
        destruct (closed_iota_view.elements fuel _) as [[l| |]|]; reflexivity.
      * apply in_range_iff. apply in_range_iff in Hf. lia.
    + rewrite c_eq_valid by assumption. cbn [zval]. apply Z.eqb_neq. lia.
    + rewrite c_pre_inc_succ by (assumption || (cbn [zval]; lia)). reflexivity.
Qed.

(** Where [++] wraps, it takes the maximum to the minimum. *)
Lemma convert_past_max p T :
  T <> Bool -> convert p T (max_val p T + 1) = min_val p T.
Proof. intros Hb. destruct p, T; try congruence; vm_compute; reflexivity. Qed.

(** X7. A closed generator built with [to < from] (one integral type).
    Where [++] wraps around, on the unsigned types and on the signed types
    narrower than [int], the run passes the maximum, continues at the
    minimum and ends at [to].  Where [++] overflows ([int] and the wider
    signed types) the run is undefined once it steps past the maximum.  On
    [bool], [true .. false] never ends, whatever the number of steps. *)
Theorem closed_reversed_bounds (p : abi) (T : itype) (from to : cint p T) :
  valid from -> valid to -> zval to < zval from ->
  (T <> Bool -> increment_overflows p T = false ->
   closed_iota_view.elements
     (Z.to_nat (max_val p T - zval from + 1) + Z.to_nat (zval to - min_val p T + 1))
     (closed_iota_view.make from to)
   = Some (Ok (interval p T (zval from) (Z.to_nat (max_val p T - zval from + 1)) ++
               interval p T (min_val p T) (Z.to_nat (zval to - min_val p T + 1))))) /\
  (increment_overflows p T = true ->
   forall fuel, (Z.to_nat (max_val p T - zval from + 1) <= fuel)%nat ->
   closed_iota_view.elements fuel (closed_iota_view.make from to) = Some Undefined) /\
  (T = Bool ->
   forall fuel, closed_iota_view.elements fuel (closed_iota_view.make from to) = None).
Proof.
  destruct from as [f], to as [t]. unfold valid. cbn [zval]. intros Hf Ht Hlt.
  pose proof (proj1 (in_range_iff p T f) Hf) as Hrf.
  pose proof (proj1 (in_range_iff p T t) Ht) as Hrt.
  unfold closed_iota_view.make.
  set (n := Z.to_nat (max_val p T - f)).
  assert (Hn : Z.to_nat (max_val p T - f + 1) = (n + 1)%nat) by (subst n; lia).
  assert (Hfn : f + Z.of_nat n = max_val p T) by (subst n; lia).
  assert (Hmax : in_range p T (max_val p T) = true) by (apply in_range_iff; lia).
  assert (Hne : c_eq (@CInt p T (max_val p T)) (@CInt p T t) = false).
  { rewrite c_eq_valid by assumption. cbn [zval]. apply Z.eqb_neq. lia. }
  split; [|split].
  - intros Hb Hov.
    set (m := Z.to_nat (t - min_val p T)).
    replace (Z.to_nat (t - min_val p T + 1)) with (S m) by (subst m; lia).
    rewrite Hn. replace (n + 1 + S m)%nat with (n + S (S m))%nat by lia.
    rewrite closed_elements_prefix by (assumption || lia).
    rewrite Hfn.
    rewrite (@closed_elements_step p T (CInt (max_val p T)) (CInt t)
               (CInt (min_val p T)) (S m)); [|exact Hne|].
    + pose proof (@closed_elements_interval p T m (min_val p T) t) as Hi.
      unfold closed_iota_view.make in Hi.
      rewrite Hi; [| apply in_range_iff; lia | assumption | subst m; lia].
      cbn [prepend]. do 2 f_equal.
      rewrite <- (interval_app p T n f 1). cbn [interval]. rewrite Hfn.
      rewrite <- app_assoc. reflexivity.
    + rewrite c_pre_inc_total by assumption. rewrite Hov. cbn [andb zval].
      now rewrite convert_past_max.
  - intros Hov fuel Hfuel.
    replace fuel with (n + S (fuel - n - 1))%nat by lia.
    rewrite closed_elements_prefix by (assumption || lia).
    rewrite Hfn.
    cbn [closed_iota_view.elements closed_iota_view.done closed_iota_view.done_].
    unfold closed_iota_view.next.
    cbn [closed_iota_view.from_ closed_iota_view.to_ equal_to pre_inc
         cint_EqualityComparable cint_InputIota].
    rewrite Hne, c_pre_inc_total by assumption. rewrite Hov. cbn [andb zval].
    replace (max_val p T <? max_val p T + 1) with true by (symmetry; apply Z.ltb_lt; lia).
    reflexivity.
  - intros -> fuel.
    assert (f = 1 /\ t = 0) as [-> ->].
    { destruct p; unfold_limits; lia. }
    induction fuel as [|fuel IH]; [reflexivity|].
    rewrite (@closed_elements_step p Bool (CInt 1) (CInt 0) (CInt 1) fuel);
      [now rewrite IH | reflexivity | reflexivity].
Qed.

Lemma closed_reversed_bounds_uchar :
  valid (@CInt LP64 UChar 250) /\ valid (@CInt LP64 UChar 5) /\
  zval (@CInt LP64 UChar 5) < zval (@CInt LP64 UChar 250) /\
  UChar <> Bool /\ increment_overflows LP64 UChar = false /\
  closed_iota_view.elements
    (Z.to_nat (max_val LP64 UChar - 250 + 1) + Z.to_nat (5 - min_val LP64 UChar + 1))
    (closed_iota_view.make (@CInt LP64 UChar 250) (@CInt LP64 UChar 5))
  = Some (Ok (interval LP64 UChar 250 (Z.to_nat (max_val LP64 UChar - 250 + 1)) ++
              interval LP64 UChar (min_val LP64 UChar)
                       (Z.to_nat (5 - min_val LP64 UChar + 1)))).
Proof.
  assert (Hb : UChar <> Bool) by discriminate.
  split; [reflexivity|]. split; [reflexivity|]. split; [reflexivity|].
  split; [exact Hb|]. split; [reflexivity|].
  apply (proj1 (@closed_reversed_bounds LP64 UChar (CInt 250) (CInt 5)
                  eq_refl eq_refl eq_refl) Hb eq_refl).
Defined.

(** [n] steps that stay below the bound leave the generator active. *)
Lemma closed_nexts_below p T (to : Z) n : forall from : Z,
  in_range p T from = true -> in_range p T to = true ->
  from + Z.of_nat n <= to ->
  closed_iota_view.nexts n (closed_iota_view.mk (@CInt p T from) (@CInt p T to) false)
  = Ok (closed_iota_view.mk (@CInt p T (from + Z.of_nat n)) (@CInt p T to) false).
Proof.
  induction n as [|n IH]; intros from Hf Ht Hle.
  - cbn. now rewrite Z.add_0_r.
  - cbn [closed_iota_view.nexts]. unfold closed_iota_view.next.
    cbn [closed_iota_view.from_ closed_iota_view.to_ closed_iota_view.done_
         equal_to pre_inc cint_EqualityComparable cint_InputIota].
    rewrite c_eq_valid by assumption. cbn [zval].
    replace (from =? to) with false by (symmetry; apply Z.eqb_neq; lia).
    assert (Hmax : to <= max_val p T) by (apply in_range_iff in Ht; lia).
    rewrite c_pre_inc_succ by (assumption || (cbn [zval]; lia)).
    cbn [bind zval]. rewrite IH; try assumption; try lia.
    + do 3 f_equal. lia.
    + apply in_range_iff. apply in_range_iff in Hf. lia.
Qed.

(** X8. Seeking a closed generator over [from <= to] (distance
    representable).  Any [n] up to the distance, negative ones included,
    moves [from_] to [from + n] when that is a value of the type, and leaves
    the generator active; for [0 <= n] this is the state [n] calls of [next]
    reach.  Any [n] above the distance is an assertion failure.  The check
    guards the upper bound only. *)
Theorem closed_advance_position (p : abi) (Val : itype) (from to : cint p Val)
        (n : cint p (iota_difference_t p Val)) :
  models_RandomAccessIota Val = true ->
  valid from -> valid to -> valid n -> zval from <= zval to ->
  zval to - zval from <= max_val p (iota_difference_t p Val) ->
  (zval n <= zval to - zval from ->
   in_range p Val (zval from + zval n) = true ->
   closed_iota_view.advance (closed_iota_view.make from to) n
   = Ok (closed_iota_view.mk (CInt (zval from + zval n)) to false)) /\
  (0 <= zval n <= zval to - zval from ->
   closed_iota_view.advance (closed_iota_view.make from to) n
   = closed_iota_view.nexts (Z.to_nat (zval n)) (closed_iota_view.make from to)) /\
  (zval to - zval from < zval n ->
   closed_iota_view.advance (closed_iota_view.make from to) n = AssertionFailure).
Proof.
  intros _ Hf Ht Hn Hle Hfit.
  assert (Hd : iota_minus_integral to from = Ok (CInt (zval to - zval from)))
    by (apply iota_minus_le; assumption).
  assert (Hvd : valid (@CInt p (iota_difference_t p Val) (zval to - zval from)))
    by (eapply iota_minus_valid; exact Hd).
  assert (Hadv : zval n <= zval to - zval from ->
                 in_range p Val (zval from + zval n) = true ->
                 closed_iota_view.advance (closed_iota_view.make from to) n
                 = Ok (closed_iota_view.mk (CInt (zval from + zval n)) to false)).
  { intros Hnd Hr.
    unfold closed_iota_view.advance, closed_iota_view.make.
    cbn [closed_iota_view.from_ closed_iota_view.to_ closed_iota_view.done_
         iota_minus add_assign cint_RandomAccessIota].
    rewrite Hd. cbn [bind]. rewrite c_ge_valid by assumption. cbn [zval].
    replace (zval n <=? zval to - zval from) with true by (symmetry; apply Z.leb_le; lia).
    cbn [RANGES_ASSERT bind].
    rewrite c_add_assign_exact by assumption. reflexivity. }
  split; [exact Hadv|]. split.
  - intros [H0 Hnd].
    assert (Hr : in_range p Val (zval from + zval n) = true).
    { apply in_range_iff. apply in_range_iff in Hf. apply in_range_iff in Ht. lia. }
    rewrite (Hadv Hnd Hr).
    destruct from as [f], to as [t]. unfold valid in *. cbn [zval] in *.
    unfold closed_iota_view.make.
    rewrite closed_nexts_below by (assumption || lia).
    do 3 f_equal. lia.
  - intros Hgt.
    unfold closed_iota_view.advance, closed_iota_view.make.
    cbn [closed_iota_view.from_ closed_iota_view.to_ closed_iota_view.done_
         iota_minus add_assign cint_RandomAccessIota].
    rewrite Hd. cbn [bind]. rewrite c_ge_valid by assumption. cbn [zval].
    replace (zval n <=? zval to - zval from) with false by (symmetry; apply Z.leb_gt; lia).
    reflexivity.
Qed.

Lemma closed_advance_position_backwards :
  models_RandomAccessIota Int = true /\
  valid (@CInt LP64 Int 0) /\ valid (@CInt LP64 Int 5) /\
  valid (@CInt LP64 (iota_difference_t LP64 Int) (-3)) /\
  closed_iota_view.advance (closed_iota_view.make (@CInt LP64 Int 0) (@CInt LP64 Int 5))
                           (@CInt LP64 (iota_difference_t LP64 Int) (-3))
  = Ok (closed_iota_view.mk (CInt (0 + -3)) (CInt 5) false).
Proof.
  assert (Hle : zval (@CInt LP64 Int 0) <= zval (@CInt LP64 Int 5)) by (cbn; lia).
  assert (Hfit : zval (@CInt LP64 Int 5) - zval (@CInt LP64 Int 0)
                 <= max_val LP64 (iota_difference_t LP64 Int)) by (vm_compute; discriminate).
  assert (Hn : zval (@CInt LP64 (iota_difference_t LP64 Int) (-3))
               <= zval (@CInt LP64 Int 5) - zval (@CInt LP64 Int 0)) by (cbn; lia).
  split; [reflexivity|]. split; [reflexivity|]. split; [reflexivity|].
  split; [reflexivity|].
  apply (proj1 (@closed_advance_position LP64 Int (CInt 0) (CInt 5) (CInt (-3))
                  eq_refl eq_refl eq_refl eq_refl Hle Hfit) Hn eq_refl).
Defined.

(** X9. [prev] of the closed generator changes [from_] only.  Away from
    the bound it undoes [next].  At the bound [next] finishes the generator
    and [prev] then steps [from_] back below the bound without reactivating
    it: the generator stays done, and a further [next] moves [from_] forward
    again, still done. *)
Theorem closed_prev_keeps_done :
  (forall (Val Val2 : Type) (B : BidirectionalIota Val) (c c' : closed_iota_view.t Val Val2),
      closed_iota_view.prev c = Ok c' ->
      closed_iota_view.to_ c' = closed_iota_view.to_ c /\
      closed_iota_view.done c' = closed_iota_view.done c) /\
  (forall (p : abi) (Val : itype) (from to : cint p Val) (d : bool),
      models_RandomAccessIota Val = true -> valid from -> valid to ->
      (zval from < zval to ->
       (s <- closed_iota_view.next (closed_iota_view.mk from to d) ;;
        closed_iota_view.prev s)
       = Ok (closed_iota_view.mk from to d)) /\
      (zval from = zval to -> min_val p Val < zval to ->
       (s <- closed_iota_view.next (closed_iota_view.mk from to d) ;;
        closed_iota_view.prev s)
       = Ok (closed_iota_view.mk (CInt (zval to - 1)) to true) /\
       closed_iota_view.next (closed_iota_view.mk (@CInt p Val (zval to - 1)) to true)
       = Ok (closed_iota_view.mk (CInt (zval to)) to true))).
Proof.
  split.
  - intros Val Val2 B c c'. unfold closed_iota_view.prev.
    destruct (pre_dec _) as [v| |]; cbn [bind]; try discriminate.
    intros [= <-]. split; reflexivity.
  - intros p Val [f] [t] d Hra Hf Ht. unfold valid in Hf, Ht. cbn [zval] in *.
    assert (Hb : Val <> Bool) by (intros ->; discriminate Hra).
    pose proof (proj1 (in_range_iff p Val f) Hf) as Hrf.
    pose proof (proj1 (in_range_iff p Val t) Ht) as Hrt.
    assert (Hdec : forall x, in_range p Val x = true -> min_val p Val < x ->
                   c_pre_dec (@CInt p Val x) = Ok (CInt (x - 1))).
    { intros x Hx Hlt. rewrite c_pre_dec_total by assumption. cbn [zval].
      replace (x - 1 <? min_val p Val) with false by (symmetry; apply Z.ltb_ge; lia).
      rewrite andb_false_r. rewrite convert_id; [reflexivity|].
      apply in_range_iff. apply in_range_iff in Hx. lia. }
    split.
    + intros Hlt. unfold closed_iota_view.next, closed_iota_view.prev.
      cbn [closed_iota_view.from_ closed_iota_view.to_ closed_iota_view.done_
           equal_to pre_inc pre_dec cint_EqualityComparable cint_InputIota
           cint_BidirectionalIota].
      rewrite c_eq_valid by assumption. cbn [zval].
      replace (f =? t) with false by (symmetry; apply Z.eqb_neq; lia).
      rewrite c_pre_inc_succ by (assumption || (cbn [zval]; lia)).
      cbn [bind zval closed_iota_view.from_ closed_iota_view.to_ closed_iota_view.done_].
      rewrite Hdec by (try (apply in_range_iff); lia).
      cbn [bind]. do 3 f_equal. lia.
    + intros -> Hmin. split.
      * unfold closed_iota_view.next, closed_iota_view.prev.
        cbn [closed_iota_view.from_ closed_iota_view.to_ closed_iota_view.done_
             equal_to pre_inc pre_dec cint_EqualityComparable cint_InputIota
             cint_BidirectionalIota].
        rewrite c_eq_refl.
        cbn [bind closed_iota_view.from_ closed_iota_view.to_ closed_iota_view.done_
             pre_dec cint_BidirectionalIota].
        rewrite Hdec by assumption. reflexivity.
      * unfold closed_iota_view.next.
        cbn [closed_iota_view.from_ closed_iota_view.to_ closed_iota_view.done_
             equal_to pre_inc cint_EqualityComparable cint_InputIota].
        rewrite c_eq_valid by (assumption || (apply in_range_iff; cbn [zval]; lia)).
        cbn [zval].
        replace (t - 1 =? t) with false by (symmetry; apply Z.eqb_neq; lia).
        rewrite c_pre_inc_succ by ((apply in_range_iff; cbn [zval]; lia) || (cbn [zval]; lia)).
        cbn [bind zval]. do 3 f_equal. lia.
Qed.

Lemma closed_prev_keeps_done_int :
  models_RandomAccessIota Int = true /\
  valid (@CInt LP64 Int 5) /\ min_val LP64 Int < 5 /\
  (s <- closed_iota_view.next (closed_iota_view.mk (@CInt LP64 Int 5) (@CInt LP64 Int 5) false) ;;
   closed_iota_view.prev s)
  = Ok (closed_iota_view.mk (CInt (5 - 1)) (CInt 5) true).
Proof.
  split; [reflexivity|]. split; [reflexivity|]. split; [reflexivity|].
  apply (proj1 (proj2 (proj2 closed_prev_keeps_done LP64 Int (CInt 5) (CInt 5) false
                         eq_refl eq_refl eq_refl) eq_refl eq_refl)).
Defined.

(* ================================================================== *)
(** * The counted view away from [from <= to] *)
(* ================================================================== *)

(** [d + 1] for any distance below the maximum, and its storage. *)
Lemma distance_plus_one p Val (d : Z) :
  min_val p (iota_difference_t p Val) <= d < max_val p (iota_difference_t p Val) ->
  c_add (@CInt p (iota_difference_t p Val) d) (@one p) = Ok (CInt (d + 1)).
Proof.
  intros Hd.
  destruct p, Val; revert Hd; eval_types; intros Hd; int_crush.
Qed.

Lemma distance_stored p Val (d : Z) :
  min_val p (iota_difference_t p Val) <= d < max_val p (iota_difference_t p Val) ->
  cast (iota_difference_t p Val)
       (@CInt p (arith_type p (iota_difference_t p Val) Int) (d + 1))
  = CInt (d + 1).
Proof.
  intros Hd.
  destruct p, Val; revert Hd; eval_types; intros Hd; int_crush.
Qed.

Lemma iota_minus_zero_extended p Val (v0 v1 : cint p Val) :
  valid v0 -> valid v1 -> zero_extends p Val = true -> zval v0 < zval v1 ->
  iota_minus_integral v0 v1 = Ok (CInt (zval v0 - zval v1 + 2 ^ bits p Val)) /\
  0 < zval v0 - zval v1 + 2 ^ bits p Val < max_val p (iota_difference_t p Val).
Proof.
  destruct v0 as [v0], v1 as [v1]. intros H0 H1 Hz Hlt.
  destruct p, Val; try discriminate Hz; clear Hz;
    cbv [bits difference_t]; eval_types; cbv [sizeof CHAR_BIT];
    split; int_crush.
Qed.

Lemma iota_minus_exact p Val (v0 v1 : cint p Val) :
  valid v0 -> valid v1 -> zero_extends p Val = false ->
  in_range p (iota_difference_t p Val) (zval v0 - zval v1) = true ->
  iota_minus_integral v0 v1 = Ok (CInt (zval v0 - zval v1)).
Proof.
  destruct v0 as [v0], v1 as [v1]. intros H0 H1 Hz Hfit.
  destruct p, Val; try discriminate Hz; clear Hz; revert Hfit; eval_types;
    intros Hfit; int_crush.
Qed.

Lemma iota_difference_signed_bounds p Val :
  min_val p (iota_difference_t p Val) < 0.
Proof. destruct p, Val; vm_compute; reflexivity. Qed.

Lemma zero_extends_unsigned p Val :
  zero_extends p Val = true ->
  increment_overflows p Val = false /\ Val <> Bool /\
  min_val p Val = 0 /\ max_val p Val = 2 ^ bits p Val - 1.
Proof.
  destruct p, Val; intros H; try discriminate H; vm_compute; repeat split; congruence.
Qed.

(** The counted view reads on from [from + n] after [n] values. *)
Lemma first_n_prefix p T n : forall (from : Z) (k : nat),
  in_range p T from = true -> from + Z.of_nat n <= max_val p T ->
  take_view.first_n (n + S k) (iota_view.mk (@CInt p T from))
  = (l <- take_view.first_n (S k) (iota_view.mk (@CInt p T (from + Z.of_nat n))) ;;
     Ok (interval p T from n ++ l)).
Proof.
  induction n as [|n IH]; intros from k Hf Hmax.
  - cbn [Nat.add interval app]. rewrite Z.add_0_r.
    destruct (take_view.first_n (S k) _); reflexivity.
  - replace (S n + S k)%nat with (S (S (n + k))) by lia.
    change (take_view.first_n (S (S (n + k))) ?v)
      with (s <- iota_view.next v ;;
            l <- take_view.first_n (S (n + k)) s ;;
            Ok (iota_view.current v :: l)).
    unfold iota_view.next. cbn [iota_view.value_ pre_inc cint_InputIota].
    rewrite c_pre_inc_succ by (assumption || (cbn [zval]; lia)).
    cbn [bind zval]. replace (S (n + k)) with (n + S k)%nat by lia.
    rewrite IH by ((apply in_range_iff; apply in_range_iff in Hf; lia) || lia).
    replace (from + 1 + Z.of_nat n) with (from + Z.of_nat (S n)) by lia.
    destruct (take_view.first_n (S k) _); reflexivity.
Qed.

(** X10. [ints(from, to)] with [to < from].  On [unsigned int] (and any
    type whose unsigned difference is narrower than the distance type) the
    wrapped difference makes the count positive, [2^bits - (from - to) + 1]:
    the view counts on past the maximum and around to [to], as the closed
    generator does.  On every other integral type the count handed to the
    adapter is [to - from + 1], zero or negative, provided the distance type
    holds [to - from]. *)
Theorem ints_reversed_bounds (p : abi) (Val : itype) (from to : cint p Val) :
  valid from -> valid to -> zval to < zval from ->
  (zero_extends p Val = true ->
   ints from to
   = Ok (take_view.mk (iota_view.mk from)
                      (CInt (2 ^ bits p Val - (zval from - zval to) + 1))) /\
   0 < 2 ^ bits p Val - (zval from - zval to) + 1 /\
   (r <- ints from to ;; take_view.elements r)
   = Ok (interval p Val (zval from) (Z.to_nat (max_val p Val - zval from + 1)) ++
         interval p Val 0 (Z.to_nat (zval to + 1)))) /\
  (zero_extends p Val = false ->
   in_range p (iota_difference_t p Val) (zval to - zval from) = true ->
   ints from to
   = Ok (take_view.mk (iota_view.mk from) (CInt (zval to - zval from + 1))) /\
   zval to - zval from + 1 <= 0).
Proof.
  intros Hf Ht Hlt. split.
  - intros Hz.
    destruct (@iota_minus_zero_extended p Val to from Ht Hf Hz Hlt) as [Hd Hb].
    destruct (zero_extends_unsigned _ _ Hz) as (Hov & Hnb & Hmin & Hmax).
    assert (Hints : ints from to
      = Ok (take_view.mk (iota_view.mk from)
                         (CInt (2 ^ bits p Val - (zval from - zval to) + 1)))).
    { unfold ints. cbn [iota_minus cint_RandomAccessIota].
      rewrite Hd. cbn [bind].
      assert (Hr : min_val p (iota_difference_t p Val)
                   <= zval to - zval from + 2 ^ bits p Val
                   < max_val p (iota_difference_t p Val))
        by (pose proof (@iota_difference_signed_bounds p Val); lia).
      rewrite distance_plus_one by exact Hr. cbn [bind].
      rewrite distance_stored by exact Hr.
      do 3 f_equal. lia. }
    split; [exact Hints|]. split; [lia|].
    rewrite Hints. cbn [bind]. unfold take_view.elements.
    cbn [take_view.n_ take_view.rng_ zval].
    destruct from as [f], to as [t]. unfold valid in Hf, Ht. cbn [zval] in *.
    pose proof (proj1 (in_range_iff p Val f) Hf) as Hrf.
    pose proof (proj1 (in_range_iff p Val t) Ht) as Hrt.
    set (n := Z.to_nat (max_val p Val - f)).
    set (m := Z.to_nat t).
    replace (Z.to_nat (2 ^ bits p Val - (f - t) + 1)) with (n + S (S m))%nat
      by (subst n m; lia).
    replace (Z.to_nat (max_val p Val - f + 1)) with (n + 1)%nat by (subst n; lia).
    replace (Z.to_nat (t + 1)) with (S m) by (subst m; lia).
    rewrite first_n_prefix by (assumption || (subst n; lia)).
    replace (f + Z.of_nat n) with (max_val p Val) by (subst n; lia).
    change (take_view.first_n (S (S m)) ?v)
      with (s <- iota_view.next v ;;
            l <- take_view.first_n (S m) s ;;
            Ok (iota_view.current v :: l)).
    unfold iota_view.next. cbn [iota_view.value_ pre_inc cint_InputIota].
    rewrite c_pre_inc_total by (apply in_range_iff; cbn [zval]; lia).
    rewrite Hov. cbn [andb zval bind]. rewrite convert_past_max by assumption.
    rewrite Hmin.
    rewrite first_n_interval by ((apply in_range_iff; lia) || (subst m; lia)).
    cbn [bind iota_view.current iota_view.value_]. f_equal.
    rewrite <- (interval_app p Val n f 1). cbn [interval].
    replace (f + Z.of_nat n) with (max_val p Val) by (subst n; lia).
    rewrite <- app_assoc. reflexivity.
  - intros Hz Hfit. unfold ints. cbn [iota_minus cint_RandomAccessIota].
    rewrite iota_minus_exact by assumption. cbn [bind].
    assert (Hr : min_val p (iota_difference_t p Val)
                 <= zval to - zval from
                 < max_val p (iota_difference_t p Val)).
    { apply in_range_iff in Hfit.
      pose proof (max_val_pos p (iota_difference_t p Val)). lia. }
    rewrite distance_plus_one by exact Hr. cbn [bind].
    rewrite distance_stored by exact Hr.
    split; [reflexivity | lia].
Qed.

Lemma ints_reversed_bounds_uint :
  valid (@CInt LP64 UInt 5) /\ valid (@CInt LP64 UInt 3) /\
  zval (@CInt LP64 UInt 3) < zval (@CInt LP64 UInt 5) /\
  zero_extends LP64 UInt = true /\
  ints (@CInt LP64 UInt 5) (@CInt LP64 UInt 3)
  = Ok (take_view.mk (iota_view.mk (CInt 5))
                     (CInt (2 ^ bits LP64 UInt - (5 - 3) + 1))).
Proof.
  split; [reflexivity|]. split; [reflexivity|]. split; [reflexivity|].
  split; [reflexivity|].
  apply (proj1 (proj1 (@ints_reversed_bounds LP64 UInt (CInt 5) (CInt 3)
                         eq_refl eq_refl eq_refl) eq_refl)).
Defined.

(* ================================================================== *)
(** * Positions and distances *)
(* ================================================================== *)

(** X11. On the unbounded generator, the distance from the start to the
    position after [k] advances is [k], as long as the value type holds
    [start + k] and the distance type holds [k]. *)
Theorem distance_counts_advances (p : abi) (Val : itype) (start : cint p Val) (k : nat) :
  valid start -> models_RandomAccessIota Val = true ->
  zval start + Z.of_nat k <= max_val p Val ->
  Z.of_nat k <= max_val p (iota_difference_t p Val) ->
  (s <- iota_view.nexts k (iota_view.mk start) ;;
   iota_view.distance_to (iota_view.mk start) s)
  = Ok (CInt (Z.of_nat k)).
Proof.
  intros Hs Hra Hk Hfit. destruct start as [s]. unfold valid in Hs. cbn [zval] in *.
  rewrite nexts_pre_incs, pre_incs_add by assumption. cbn [bind].
  unfold iota_view.distance_to. cbn [iota_view.value_ iota_minus cint_RandomAccessIota].
  pose proof (proj1 (in_range_iff p Val s) Hs) as Hr.
  rewrite iota_minus_le.
  - cbn [zval]. do 2 f_equal. lia.
  - exact Hs.
  - apply in_range_iff. cbn [zval]. lia.
  - cbn [zval]. lia.
  - cbn [zval]. lia.
Qed.

Lemma distance_counts_advances_int :
  valid (@CInt LP64 Int 3) /\ models_RandomAccessIota Int = true /\
  (s <- iota_view.nexts 4 (iota_view.mk (@CInt LP64 Int 3)) ;;
   iota_view.distance_to (iota_view.mk (@CInt LP64 Int 3)) s)
  = Ok (CInt (Z.of_nat 4)).
Proof.
  assert (Hk : zval (@CInt LP64 Int 3) + Z.of_nat 4 <= max_val LP64 Int)
    by (vm_compute; discriminate).
  assert (Hfit : Z.of_nat 4 <= max_val LP64 (iota_difference_t LP64 Int))
    by (vm_compute; discriminate).
  split; [reflexivity|]. split; [reflexivity|].
  apply (@distance_counts_advances LP64 Int (CInt 3) 4%nat eq_refl eq_refl Hk Hfit).
Defined.

Lemma closed_nexts_add {Val Val2 : Type} `{InputIota Val} `{EqualityComparable Val Val2}
      (a : nat) : forall (b : nat) (c : closed_iota_view.t Val Val2),
  closed_iota_view.nexts (a + b) c
  = (s <- closed_iota_view.nexts a c ;; closed_iota_view.nexts b s).
Proof.
  induction a as [|a IH]; intros b c; cbn [Nat.add closed_iota_view.nexts bind].
  - reflexivity.
  - destruct (closed_iota_view.next c); cbn [bind]; auto.
Qed.

(** X12. The position of a closed generator saturates at the bound.  Over
    integers [from <= to] (distance representable), after [k] calls of
    [next] the generator stands at [from + min(k, to - from)], its distance
    from the start is [min(k, to - from)], and it is done exactly when
    [k > to - from]. *)
Theorem closed_position_saturates (p : abi) (Val : itype) (from to : cint p Val) (k : nat) :
  valid from -> valid to -> zval from <= zval to ->
  zval to - zval from <= max_val p (iota_difference_t p Val) ->
  closed_iota_view.nexts k (closed_iota_view.make from to)
  = Ok (closed_iota_view.mk
          (CInt (zval from + Z.min (Z.of_nat k) (zval to - zval from)))
          to (zval to - zval from <? Z.of_nat k)) /\
  (models_RandomAccessIota Val = true ->
   (s <- closed_iota_view.nexts k (closed_iota_view.make from to) ;;
    closed_iota_view.distance_to (closed_iota_view.make from to) s)
   = Ok (CInt (Z.min (Z.of_nat k) (zval to - zval from)))).
Proof.
  intros Hf Ht Hle Hfit.
  destruct from as [f], to as [t]. unfold valid in Hf, Ht. cbn [zval] in *.
  pose proof (proj1 (in_range_iff p Val f) Hf) as Hrf.
  pose proof (proj1 (in_range_iff p Val t) Ht) as Hrt.
  assert (Hn : closed_iota_view.nexts k (closed_iota_view.make (@CInt p Val f) (@CInt p Val t))
               = Ok (closed_iota_view.mk (CInt (f + Z.min (Z.of_nat k) (t - f)))
                                         (CInt t) (t - f <? Z.of_nat k))).
  { unfold closed_iota_view.make.
    destruct (Z.ltb_spec (t - f) (Z.of_nat k)) as [Hgt | Hlek].
    - replace k with (Z.to_nat (t - f) + S (k - Z.to_nat (t - f) - 1))%nat by lia.
      rewrite closed_nexts_add.
      rewrite closed_nexts_below by (assumption || lia). cbn [bind].
      replace (f + Z.of_nat (Z.to_nat (t - f))) with t by lia.
      rewrite nexts_at_bound by apply c_eq_refl.
      do 3 f_equal. lia.
    - rewrite closed_nexts_below by (assumption || lia).
      do 3 f_equal. lia. }
  split; [exact Hn|]. intros _. rewrite Hn. cbn [bind].
  unfold closed_iota_view.distance_to, closed_iota_view.make.
  cbn [closed_iota_view.from_ iota_minus cint_RandomAccessIota].
  rewrite iota_minus_le.
  - cbn [zval]. do 2 f_equal. lia.
  - exact Hf.
  - apply in_range_iff. cbn [zval]. lia.
  - cbn [zval]. lia.
  - cbn [zval]. lia.
Qed.

Lemma closed_position_saturates_int :
  valid (@CInt LP64 Int 3) /\ valid (@CInt LP64 Int 5) /\
  (s <- closed_iota_view.nexts 7 (closed_iota_view.make (@CInt LP64 Int 3) (@CInt LP64 Int 5)) ;;
   closed_iota_view.distance_to (closed_iota_view.make (@CInt LP64 Int 3) (@CInt LP64 Int 5)) s)
  = Ok (CInt (Z.min (Z.of_nat 7) (5 - 3))).
Proof.
  assert (Hle : zval (@CInt LP64 Int 3) <= zval (@CInt LP64 Int 5)) by (cbn; lia).
  assert (Hfit : zval (@CInt LP64 Int 5) - zval (@CInt LP64 Int 3)
                 <= max_val LP64 (iota_difference_t LP64 Int)) by (vm_compute; discriminate).
  split; [reflexivity|]. split; [reflexivity|].
  apply (proj2 (@closed_position_saturates LP64 Int (CInt 3) (CInt 5) 7%nat
                  eq_refl eq_refl Hle Hfit) eq_refl).
Defined.

(** X13. [equal] of the closed generator compares [from_] only: on values
    of one integral type it is equality of the two positions, whatever the
    bounds and the [done_] flags.  In particular the generator finished by
    [next] at the bound compares equal to the active one it came from. *)
Theorem closed_equal_ignores_done (p : abi) (Val : itype)
        (c1 c2 : closed_iota_view.t (cint p Val) (cint p Val)) :
  valid (closed_iota_view.from_ c1) -> valid (closed_iota_view.from_ c2) ->
  closed_iota_view.equal c1 c2
  = (zval (closed_iota_view.from_ c1) =? zval (closed_iota_view.from_ c2)) /\
  (c_eq (closed_iota_view.from_ c1) (closed_iota_view.to_ c1) = true ->
   closed_iota_view.done c1 = false ->
   exists c', closed_iota_view.next c1 = Ok c' /\
              closed_iota_view.equal c1 c' = true /\
              closed_iota_view.done c' = true).
Proof.
  intros H1 H2. split.
  - unfold closed_iota_view.equal. cbn [equal_to cint_EqualityComparable].
    rewrite c_eq_valid by assumption. apply Z.eqb_sym.
  - intros Hb Hd. unfold closed_iota_view.next.
    cbn [equal_to cint_EqualityComparable]. rewrite Hb.
    eexists. split; [reflexivity|]. split; [|reflexivity].
    unfold closed_iota_view.equal. cbn [closed_iota_view.from_ equal_to cint_EqualityComparable].
    apply c_eq_refl.
Qed.

Lemma closed_equal_ignores_done_int :
  valid (@CInt LP64 Int 5) /\
  c_eq (@CInt LP64 Int 5) (@CInt LP64 Int 5) = true /\
  exists c', closed_iota_view.next (closed_iota_view.make (@CInt LP64 Int 5) (@CInt LP64 Int 5))
             = Ok c' /\
             closed_iota_view.equal
               (closed_iota_view.make (@CInt LP64 Int 5) (@CInt LP64 Int 5)) c' = true /\
             closed_iota_view.done c' = true.
Proof.
  split; [reflexivity|]. split; [reflexivity|].
  apply (proj2 (@closed_equal_ignores_done LP64 Int
                  (closed_iota_view.make (CInt 5) (CInt 5))
                  (closed_iota_view.make (CInt 5) (CInt 5)) eq_refl eq_refl)
               eq_refl eq_refl).
Defined.
